(** * youtube_comment_downloader: the comment writer

    A shallow embedding of [youtube_comment_downloader/__init__.py]:
    [to_json] (the record encoder) and [main] (the command-line entry
    point with its one-record-lookahead writer loop), together with the
    parts of Python's [json] and [str] libraries they call.

    Python strings are sequences of Unicode code points; they are modelled
    as lists of [N].  The text written to the output file is modelled
    before its UTF-8 encoding.  Floating-point numbers, the wall clock and
    exceptions raised by the producer or by the file system are outside the
    model. *)

From Stdlib Require Import Ascii String.
From Stdlib Require Import NArith ZArith Lia Bool DecimalFacts DecimalZ List.
Import ListNotations.

Set Implicit Arguments.

(** ** Python strings *)

Definition char := N.
Definition pystr := list char.

(** An ASCII literal as a Python string. *)
Definition lit (s : string) : pystr :=
  map N_of_ascii (list_ascii_of_string s).

Definition LF : char := 10%N.
Definition CR : char := 13%N.
Definition SPACE : char := 32%N.
Definition QUOTE : char := 34%N.
Definition BACKSLASH : char := 92%N.

(** [" " * n]: a negative count gives the empty string. *)
Definition spaces (n : Z) : pystr := repeat SPACE (Z.to_nat n).

(** [sep.join(parts)] *)
Fixpoint join (sep : pystr) (parts : list pystr) : pystr :=
  match parts with
  | [] => []
  | [p] => p
  | p :: ps => p ++ sep ++ join sep ps
  end.

(** *** [str.splitlines(keepends=True)]

    The line boundaries of [str.splitlines]: LF, VT, FF, CR, FS, GS, RS,
    NEL (U+0085), LINE SEPARATOR (U+2028) and PARAGRAPH SEPARATOR
    (U+2029); CR LF counts as one boundary. *)
Definition is_linebreak (c : char) : bool :=
  ((10 <=? c) && (c <=? 13) || (28 <=? c) && (c <=? 30)
   || (c =? 133) || (c =? 8232) || (c =? 8233))%N.

Fixpoint splitlines_from (cur : pystr) (s : pystr) : list pystr :=
  match s with
  | [] => match cur with [] => [] | _ => [cur] end
  | c :: s' =>
      if (c =? CR)%N then
        match s' with
        | d :: s'' =>
            if (d =? LF)%N then (cur ++ [c; d]) :: splitlines_from [] s''
            else (cur ++ [c]) :: splitlines_from [] s'
        | [] => (cur ++ [c]) :: splitlines_from [] s'
        end
      else if is_linebreak c then (cur ++ [c]) :: splitlines_from [] s'
      else splitlines_from (cur ++ [c]) s'
  end.

Definition splitlines_keepends (s : pystr) : list pystr :=
  splitlines_from [] s.

(** ** JSON-compatible values

    A record is a Python [dict]: an insertion-ordered mapping from string
    keys to values, kept as an association list in insertion order. *)

Unset Elimination Schemes.
Inductive json : Type :=
| JNull : json
| JBool : bool -> json
| JInt : Z -> json
| JStr : pystr -> json
| JArr : list json -> json
| JObj : list (pystr * json) -> json.
Set Elimination Schemes.

Definition record := list (pystr * json).

(** Python truth value of a [dict]: false exactly when it is empty. *)
Definition truthy (comment : record) : bool :=
  match comment with [] => false | _ => true end.

(** ** [json.dumps(obj, ensure_ascii=False, indent=indent)] *)

Definition hex_digit (n : N) : char :=
  (if n <? 10 then 48 + n else 87 + n)%N.

(** [ESCAPE_DCT] of [json.encoder]: the two-character escapes, and
    [\u00xx] (lower-case hexadecimal) for the other characters below
    U+0020. *)
Definition escape_char (c : char) : pystr :=
  if (c =? BACKSLASH)%N then [BACKSLASH; BACKSLASH]
  else if (c =? QUOTE)%N then [BACKSLASH; QUOTE]
  else if (c =? 8)%N then BACKSLASH :: lit "b"
  else if (c =? 12)%N then BACKSLASH :: lit "f"
  else if (c =? 10)%N then BACKSLASH :: lit "n"
  else if (c =? 13)%N then BACKSLASH :: lit "r"
  else if (c =? 9)%N then BACKSLASH :: lit "t"
  else if (c <? 32)%N then
    BACKSLASH :: lit "u00" ++ [hex_digit (c / 16); hex_digit (c mod 16)]
  else [c].

(** [py_encode_basestring]: the [ensure_ascii=False] string encoder; every
    character from U+0020 on other than the quote and the backslash is
    copied as it is. *)
Definition py_encode_basestring (s : pystr) : pystr :=
  QUOTE :: flat_map escape_char s ++ [QUOTE].

Fixpoint uint_repr (u : Decimal.uint) : pystr :=
  match u with
  | Decimal.Nil => []
  | Decimal.D0 u => 48%N :: uint_repr u
  | Decimal.D1 u => 49%N :: uint_repr u
  | Decimal.D2 u => 50%N :: uint_repr u
  | Decimal.D3 u => 51%N :: uint_repr u
  | Decimal.D4 u => 52%N :: uint_repr u
  | Decimal.D5 u => 53%N :: uint_repr u
  | Decimal.D6 u => 54%N :: uint_repr u
  | Decimal.D7 u => 55%N :: uint_repr u
  | Decimal.D8 u => 56%N :: uint_repr u
  | Decimal.D9 u => 57%N :: uint_repr u
  end.

(** [int.__repr__] *)
Definition int_repr (z : Z) : pystr :=
  match Z.to_int z with
  | Decimal.Pos u => uint_repr u
  | Decimal.Neg u => 45%N :: uint_repr u
  end.

(** [item_separator]: [", "] by default, [","] once an indent is given. *)
Definition item_separator (indent : option Z) : pystr :=
  match indent with None => lit ", " | Some _ => lit "," end.

Definition key_separator : pystr := lit ": ".

(** ["\n" + _indent * _current_indent_level], nothing without an indent. *)
Definition newline_indent (indent : option Z) (level : nat) : pystr :=
  match indent with
  | None => []
  | Some n => LF :: repeat SPACE (Z.to_nat n * level)
  end.

(** The loop of [_iterencode_list] over the items: the separator is
    yielded before every item but the first. *)
Definition iterencode_items (enc : json -> pystr) (separator : pystr)
    : bool -> list json -> pystr :=
  fix items (first : bool) (lst : list json) : pystr :=
    match lst with
    | [] => []
    | value :: lst' =>
        (if first then [] else separator) ++ enc value ++ items false lst'
    end.

(** The loop of [_iterencode_dict] over [dct.items()], in the order of the
    dict ([sort_keys] is false). *)
Definition iterencode_pairs (enc : json -> pystr) (separator : pystr)
    : bool -> list (pystr * json) -> pystr :=
  fix items (first : bool) (dct : list (pystr * json)) : pystr :=
    match dct with
    | [] => []
    | (key, value) :: dct' =>
        (if first then [] else separator)
        ++ py_encode_basestring key ++ key_separator
        ++ enc value ++ items false dct'
    end.

(** [_iterencode] of [json.encoder], the chunks already concatenated.
    [level] is [_current_indent_level]. *)
Fixpoint iterencode (indent : option Z) (level : nat) (o : json) : pystr :=
  match o with
  | JStr s => py_encode_basestring s
  | JNull => lit "null"
  | JBool true => lit "true"
  | JBool false => lit "false"
  | JInt z => int_repr z
  | JArr [] => lit "[]"
  | JArr lst =>
      lit "[" ++ newline_indent indent (S level)
      ++ iterencode_items (iterencode indent (S level))
           (item_separator indent ++ newline_indent indent (S level))
           true lst
      ++ newline_indent indent level ++ lit "]"
  | JObj [] => lit "{}"
  | JObj dct =>
      lit "{" ++ newline_indent indent (S level)
      ++ iterencode_pairs (iterencode indent (S level))
           (item_separator indent ++ newline_indent indent (S level))
           true dct
      ++ newline_indent indent level ++ lit "}"
  end.

Definition json_dumps (obj : json) (indent : option Z) : pystr :=
  iterencode indent 0 obj.

(** ** [to_json] *)

Definition to_json (comment : record) (indent : option Z) : pystr :=
  let comment_str := json_dumps (JObj comment) indent in
  match indent with
  | None => comment_str
  | Some i =>
      let padding := if (i =? 0)%Z then [] else spaces (2 * i) in
      flat_map (fun line => padding ++ line) (splitlines_keepends comment_str)
  end.

(** ** The environment of [main]

    [main] acts on the file system, on standard output and on the
    producer.  Its effects are recorded as a chronological trace, one event
    per call. *)

Inductive event : Type :=
| Makedirs (outdir : pystr)          (* os.makedirs(outdir, exist_ok=True) *)
| Stdout (text : pystr)              (* print(...) / sys.stdout.write(...) *)
| NewDownloader                      (* YoutubeCommentDownloader() *)
| Open (path : pystr)                (* io.open(output, "w", encoding="utf8") *)
| Write (text : pystr)               (* fp.write(text) *)
| Print (text : pystr)               (* print(text, file=fp, end=empty) *)
| Next                               (* next(generator, None) *)
| Close                              (* leaving the with block *)
| Report.                            (* the closing line with the elapsed time *)

Inductive exception : Type :=
| ValueError (msg : pystr).

(** The producer, [from .downloader import YoutubeCommentDownloader], is
    not part of this module: its two generator functions are taken as
    parameters.  A generator is the finite sequence of records it will
    yield; [next(generator, None)] takes its head. *)
Record Downloader : Type := {
  get_comments : option pystr -> Z -> option pystr -> list record;
  get_comments_from_url : option pystr -> Z -> option pystr -> list record
}.

(** Truth value of an [Optional[str]]: [None] and the empty string are false. *)
Definition str_truthy (s : option pystr) : bool :=
  match s with
  | None | Some [] => false
  | Some _ => true
  end.

(** [os.path.sep], on a POSIX system. *)
Definition SEP : char := 47%N.

Fixpoint dropwhile (f : char -> bool) (s : pystr) : pystr :=
  match s with
  | [] => []
  | c :: s' => if f c then dropwhile f s' else s
  end.

(** [posixpath.dirname] *)
Definition dirname (p : pystr) : pystr :=
  let head := rev (dropwhile (fun c => negb (c =? SEP)%N) (rev p)) in
  if forallb (fun c => (c =? SEP)%N) head then head
  else rev (dropwhile (fun c => (c =? SEP)%N) (rev head)).

(** [limit and count >= limit] *)
Definition limit_reached (limit : option Z) (count : Z) : bool :=
  match limit with
  | None => false
  | Some l => if (l =? 0)%Z then false else (count >=? l)%Z
  end.

(** [f"\rDownloaded {count} comment(s)"] *)
Definition progress (count : Z) : pystr :=
  CR :: lit "Downloaded " ++ int_repr count ++ lit " comment(s)".

Definition is_not_None (A : Type) (o : option A) : bool :=
  match o with Some _ => true | None => false end.

Section Loop.

Variable pretty : bool.
Variable limit : option Z.

(** One pass through the body of the [while] loop, lines 87 to 103,
    once the lookahead [next_comment] is known; [pulled] tells whether
    it was obtained from the generator. *)
Definition body (comment : record) (pulled : bool)
    (next_comment : option record) (count : Z) : list event :=
  let comment_str := to_json comment (if pretty then Some 4%Z else None) in
  let comment_str :=
    if pretty && is_not_None next_comment
    then comment_str ++ lit "," else comment_str in
  (if pulled then [Next] else [])
  ++ [Print comment_str; Stdout (progress count)].

(** [while comment: ...] entered with the current [comment] and the
    running [count]; the result is the trace of the loop and the final
    value of [count].  The recursion follows the generator: an
    iteration either consumes one of its records or ends the loop. *)
Fixpoint while_comment (generator : list record) (comment : record)
    (count : Z) : list event * Z :=
  if truthy comment then
    if limit_reached limit count then
      (body comment false None count, (count + 1)%Z)
    else
      match generator with
      | [] => (body comment true None count, (count + 1)%Z)
      | c :: generator' =>
          let '(tr, n) := while_comment generator' c (count + 1)%Z in
          (body comment true (Some c) count ++ tr, n)
      end
  else ([], count).

(** The [with] block, lines 79 to 106. *)
Definition write_comments (output : pystr) (generator : list record)
    : list event * Z :=
  let opening :=
    if pretty
    then [Write (lit "{" ++ [LF] ++ spaces 4 ++ [QUOTE] ++ lit "comments" ++ [QUOTE] ++ lit ": [" ++ [LF])]
    else [] in
  let '(tr, n) :=
    match generator with
    | [] => ([], 1%Z)
    | c :: generator' => while_comment generator' c 1%Z
    end in
  let closing :=
    if pretty
    then [Write ([LF] ++ spaces 4 ++ lit "]" ++ [LF] ++ lit "}")]
    else [] in
  ([Open output] ++ opening ++ [Next] ++ tr ++ closing ++ [Close], n).

End Loop.

Definition or_else (a b : option pystr) : option pystr :=
  if str_truthy a then a else b.

Definition print_args (words : list pystr) : pystr :=
  join [SPACE] words ++ [LF].

Definition str_of (s : option pystr) : pystr :=
  match s with Some t => t | None => lit "None" end.

Definition no_id_message : pystr :=
  lit "you need to specify a Youtube ID/URL and an output filename".

(** [main]: the trace of the run and the exception that ended it, if
    any. *)
Definition main (downloader : Downloader)
    (youtubeid url : option pystr) (output : pystr) (pretty : bool)
    (limit : option Z) (language : option pystr) (sort : Z)
    : list event * option exception :=
  if (negb (str_truthy youtubeid) && negb (str_truthy url))
     || negb (str_truthy (Some output))
  then
    ([], Some (ValueError no_id_message))
  else
    let mk :=
      if existsb (fun c => (c =? SEP)%N) output
      then [Makedirs (dirname output)] else [] in
    let banner :=
      Stdout (print_args [lit "Downloading Youtube comments for";
                          str_of (or_else youtubeid url)]) in
    let generator :=
      if str_truthy youtubeid
      then get_comments downloader youtubeid sort language
      else get_comments_from_url downloader url sort language in
    let '(tr, _) := write_comments pretty limit output generator in
    (mk ++ [banner; NewDownloader] ++ tr ++ [Report], None).

(** *** Observations on a trace *)

(** The text of the output file: what [fp.write] and [print(file=fp)]
    appended, in order. *)
Fixpoint file_text (tr : list event) : pystr :=
  match tr with
  | [] => []
  | Write s :: tr' | Print s :: tr' => s ++ file_text tr'
  | _ :: tr' => file_text tr'
  end.

(** How many records were written: the calls of [print(..., file=fp)]. *)
Fixpoint emitted (tr : list event) : nat :=
  match tr with
  | [] => 0
  | Print _ :: tr' => S (emitted tr')
  | _ :: tr' => emitted tr'
  end.

(** How many times the producer was asked for a record. *)
Fixpoint pulls (tr : list event) : nat :=
  match tr with
  | [] => 0
  | Next :: tr' => S (pulls tr')
  | _ :: tr' => pulls tr'
  end.

(** ** A reference JSON decoder

    What it means for a text to parse as JSON is fixed by a decoder for the
    grammar of RFC 8259, restricted to the values of the model (integers
    for numbers).  It is organised like [json.decoder]: [scan_string] for
    the body of a string, [parse_elems] and [parse_members] for the loops
    of [JSONArray] and [JSONObject].  Objects are decoded to association
    lists in the order of the text.  An escape of four hexadecimal digits
    is read as one character: surrogate pairs, which the encoder above
    never writes, are not joined. *)

Definition is_ws (c : char) : bool :=
  ((c =? 32) || (c =? 9) || (c =? 10) || (c =? 13))%N.

Fixpoint skip_ws (s : pystr) : pystr :=
  match s with
  | c :: s' => if is_ws c then skip_ws s' else s
  | [] => []
  end.

Definition hex_value (c : char) : option N :=
  (if (48 <=? c) && (c <=? 57) then Some (c - 48)
   else if (97 <=? c) && (c <=? 102) then Some (c - 87)
   else if (65 <=? c) && (c <=? 70) then Some (c - 55)
   else None)%N.

(** The one-letter escapes: quote, backslash, slash, b, f, n, r and t. *)
Definition unescape (e : char) : option char :=
  (if e =? 34 then Some 34
   else if e =? 92 then Some 92
   else if e =? 47 then Some 47
   else if e =? 98 then Some 8
   else if e =? 102 then Some 12
   else if e =? 110 then Some 10
   else if e =? 114 then Some 13
   else if e =? 116 then Some 9
   else None)%N.

Definition cons_fst (A B : Type) (a : A) (r : option (list A * B))
    : option (list A * B) :=
  match r with
  | Some (l, b) => Some (a :: l, b)
  | None => None
  end.

(** The body of a string, after its opening quote: the decoded string and
    the text after the closing quote.  Characters below U+0020 must be
    escaped. *)
Fixpoint scan_string (s : pystr) : option (pystr * pystr) :=
  match s with
  | [] => None
  | c :: s' =>
      if (c =? QUOTE)%N then Some ([], s')
      else if (c =? BACKSLASH)%N then
        match s' with
        | [] => None
        | e :: s'' =>
            if (e =? 117)%N then   (* u and four hexadecimal digits *)
              match s'' with
              | h1 :: h2 :: h3 :: h4 :: s4 =>
                  match hex_value h1, hex_value h2, hex_value h3, hex_value h4 with
                  | Some a, Some b, Some c, Some d =>
                      cons_fst (((a * 16 + b) * 16 + c) * 16 + d)%N
                               (scan_string s4)
                  | _, _, _, _ => None
                  end
              | _ => None
              end
            else
              match unescape e with
              | Some d => cons_fst d (scan_string s'')
              | None => None
              end
        end
      else if (c <? 32)%N then None
      else cons_fst c (scan_string s')
  end.

Definition digit_of (c : char) : option (Decimal.uint -> Decimal.uint) :=
  (if c =? 48 then Some Decimal.D0 else if c =? 49 then Some Decimal.D1
   else if c =? 50 then Some Decimal.D2 else if c =? 51 then Some Decimal.D3
   else if c =? 52 then Some Decimal.D4 else if c =? 53 then Some Decimal.D5
   else if c =? 54 then Some Decimal.D6 else if c =? 55 then Some Decimal.D7
   else if c =? 56 then Some Decimal.D8 else if c =? 57 then Some Decimal.D9
   else None)%N.

(** The longest run of decimal digits at the head of [s]. *)
Fixpoint scan_digits (s : pystr) : Decimal.uint * pystr :=
  match s with
  | [] => (Decimal.Nil, [])
  | c :: s' =>
      match digit_of c with
      | Some d => let '(u, r) := scan_digits s' in (d u, r)
      | None => (Decimal.Nil, s)
      end
  end.

(** [int = zero / ( digit1-9 *DIGIT )]: at least one digit, and no
    leading zero. *)
Definition scan_uint (s : pystr) : option (Decimal.uint * pystr) :=
  match scan_digits s with
  | (Decimal.Nil, _) => None
  | (Decimal.D0 Decimal.Nil, r) => Some (Decimal.D0 Decimal.Nil, r)
  | (Decimal.D0 _, _) => None
  | (u, r) => Some (u, r)
  end.

Definition scan_number (s : pystr) : option (json * pystr) :=
  match s with
  | [] => None
  | c :: s' =>
      if (c =? 45)%N then
        match scan_uint s' with
        | Some (u, r) => Some (JInt (Z.of_int (Decimal.Neg u)), r)
        | None => None
        end
      else
        match scan_uint s with
        | Some (u, r) => Some (JInt (Z.of_int (Decimal.Pos u)), r)
        | None => None
        end
  end.

(** [expect word s]: [s] without its prefix [word]. *)
Fixpoint expect (word s : pystr) : option pystr :=
  match word, s with
  | [], _ => Some s
  | w :: word', c :: s' => if (w =? c)%N then expect word' s' else None
  | _ :: _, [] => None
  end.

Definition literal (word : string) (v : json) (s : pystr)
    : option (json * pystr) :=
  match expect (lit word) s with
  | Some r => Some (v, r)
  | None => None
  end.

Fixpoint parse_value (fuel : nat) (s : pystr) {struct fuel}
    : option (json * pystr) :=
  match fuel with
  | O => None
  | S fuel' =>
      match skip_ws s with
      | [] => None
      | c :: s' =>
          if (c =? QUOTE)%N then
            match scan_string s' with
            | Some (str, r) => Some (JStr str, r)
            | None => None
            end
          else if (c =? 91)%N then          (* [ *)
            match skip_ws s' with
            | [] => None
            | d :: r =>
                if (d =? 93)%N then Some (JArr [], r)
                else
                  match parse_elems fuel' s' with
                  | Some (vs, r') => Some (JArr vs, r')
                  | None => None
                  end
            end
          else if (c =? 123)%N then         (* { *)
            match skip_ws s' with
            | [] => None
            | d :: r =>
                if (d =? 125)%N then Some (JObj [], r)
                else
                  match parse_members fuel' s' with
                  | Some (kvs, r') => Some (JObj kvs, r')
                  | None => None
                  end
            end
          else if (c =? 110)%N then literal "null" JNull (c :: s')
          else if (c =? 116)%N then literal "true" (JBool true) (c :: s')
          else if (c =? 102)%N then literal "false" (JBool false) (c :: s')
          else scan_number (c :: s')
      end
  end

(** The items of an array, from the start of an item up to the closing
    bracket. *)
with parse_elems (fuel : nat) (s : pystr) {struct fuel}
    : option (list json * pystr) :=
  match fuel with
  | O => None
  | S fuel' =>
      match parse_value fuel' s with
      | None => None
      | Some (v, r) =>
          match skip_ws r with
          | [] => None
          | d :: r' =>
              if (d =? 93)%N then Some ([v], r')
              else if (d =? 44)%N then cons_fst v (parse_elems fuel' r')
              else None
          end
      end
  end

(** The members of an object, from the start of a key up to the closing
    brace. *)
with parse_members (fuel : nat) (s : pystr) {struct fuel}
    : option (list (pystr * json) * pystr) :=
  match fuel with
  | O => None
  | S fuel' =>
      match skip_ws s with
      | [] => None
      | q :: s1 =>
          if (q =? QUOTE)%N then
            match scan_string s1 with
            | None => None
            | Some (key, s2) =>
                match skip_ws s2 with
                | [] => None
                | colon :: s3 =>
                    if (colon =? 58)%N then
                      match parse_value fuel' s3 with
                      | None => None
                      | Some (v, r) =>
                          match skip_ws r with
                          | [] => None
                          | d :: r' =>
                              if (d =? 125)%N then Some ([(key, v)], r')
                              else if (d =? 44)%N
                              then cons_fst (key, v) (parse_members fuel' r')
                              else None
                          end
                      end
                    else None
                end
            end
          else None
      end
  end.

(** [json.loads]: one value, then nothing but white space. *)
Definition json_loads (s : pystr) : option json :=
  match parse_value (S (length s)) s with
  | Some (v, r) => match skip_ws r with [] => Some v | _ => None end
  | None => None
  end.

(** ** Observations and sample inputs used by the statements *)

(** The document that Array mode stands for. *)
Definition document (comments : list record) : json :=
  JObj [(lit "comments", JArr (map JObj comments))].

Definition object_keys (v : json) : list pystr :=
  match v with
  | JObj kvs => map fst kvs
  | _ => []
  end.

Definition count_char (c : char) (s : pystr) : nat :=
  length (filter (N.eqb c) s).

Definition LINE_SEPARATOR : char := 8232%N.

Definition comment_a : record := [(lit "a", JInt 1)].
Definition comment_b : record := [(lit "b", JInt 2)].
Definition comment_c : record := [(lit "c", JInt 3)].
Definition comment_ab : record := [(lit "a", JInt 1); (lit "b", JInt 2)].
Definition comment_ba : record := [(lit "b", JInt 1); (lit "a", JInt 2)].
Definition empty_comment : record := [].

(** A comment whose text holds U+2028 between two letters. *)
Definition comment_ls : record :=
  [(lit "text", JStr (lit "x" ++ [LINE_SEPARATOR] ++ lit "y"))].

Definition out_path : pystr := lit "out.json".

(** A producer that yields the same records for every request. *)
Definition yields (comments : list record) : Downloader :=
  {| get_comments := fun _ _ _ => comments;
     get_comments_from_url := fun _ _ _ => comments |}.

(** A quoted ASCII word. *)
Definition quoted (s : string) : pystr := [QUOTE] ++ lit s ++ [QUOTE].

(** ** The grammar of JSON texts

    [value_text v t]: the text [t] is a JSON text of the value [v], with
    any white space before it and between its tokens.  [string_text s t]:
    [t] is the body of a string token for [s], closing quote included. *)

Definition all_ws (w : pystr) : Prop := forallb is_ws w = true.

(** The characters that may not stand for themselves in a string. *)
Definition needs_escape (c : char) : bool :=
  ((c <? 32) || (c =? QUOTE) || (c =? BACKSLASH))%N.

Inductive string_text : pystr -> pystr -> Prop :=
| ST_end : string_text [] [QUOTE]
| ST_raw c s t :
    needs_escape c = false ->
    string_text s t -> string_text (c :: s) (c :: t)
| ST_esc c s t :
    needs_escape c = true ->
    string_text s t -> string_text (c :: s) (escape_char c ++ t).

Inductive value_text : json -> pystr -> Prop :=
| VT_ws c v t :
    is_ws c = true -> value_text v t -> value_text v (c :: t)
| VT_null : value_text JNull (lit "null")
| VT_true : value_text (JBool true) (lit "true")
| VT_false : value_text (JBool false) (lit "false")
| VT_int z : value_text (JInt z) (int_repr z)
| VT_str s t :
    string_text s t -> value_text (JStr s) (QUOTE :: t)
| VT_arr_nil w :
    all_ws w -> value_text (JArr []) (91%N :: w ++ [93%N])
| VT_arr v vs t :
    elems_text (v :: vs) t -> value_text (JArr (v :: vs)) (91%N :: t)
| VT_obj_nil w :
    all_ws w -> value_text (JObj []) (123%N :: w ++ [125%N])
| VT_obj kv kvs t :
    members_text (kv :: kvs) t -> value_text (JObj (kv :: kvs)) (123%N :: t)

with elems_text : list json -> pystr -> Prop :=
| ET_last v t w :
    value_text v t -> all_ws w ->
    elems_text [v] (t ++ w ++ [93%N])
| ET_cons v t w vs t' :
    value_text v t -> all_ws w -> elems_text vs t' ->
    elems_text (v :: vs) (t ++ w ++ 44%N :: t')

with members_text : list (pystr * json) -> pystr -> Prop :=
| MT_last k tk w0 w1 v tv w2 :
    all_ws w0 -> string_text k tk -> all_ws w1 ->
    value_text v tv -> all_ws w2 ->
    members_text [(k, v)]
      (w0 ++ QUOTE :: tk ++ w1 ++ 58%N :: tv ++ w2 ++ [125%N])
| MT_cons k tk w0 w1 v tv w2 kvs t' :
    all_ws w0 -> string_text k tk -> all_ws w1 ->
    value_text v tv -> all_ws w2 -> members_text kvs t' ->
    members_text ((k, v) :: kvs)
      (w0 ++ QUOTE :: tk ++ w1 ++ 58%N :: tv ++ w2 ++ 44%N :: t').

Scheme value_text_mut := Minimality for value_text Sort Prop
  with elems_text_mut := Minimality for elems_text Sort Prop
  with members_text_mut := Minimality for members_text Sort Prop.

Combined Scheme json_text_mutind
  from value_text_mut, elems_text_mut, members_text_mut.

(** The decimal numerals the decoder accepts: not empty, with no leading
    zero. *)
Definition canonical (u : Decimal.uint) : Prop :=
  match u with
  | Decimal.Nil => False
  | Decimal.D0 Decimal.Nil => True
  | Decimal.D0 _ => False
  | _ => True
  end.

(** A text that does not go on with a decimal digit. *)
Definition no_digit_head (s : pystr) : Prop :=
  match s with
  | [] => True
  | c :: _ => digit_of c = None
  end.

(** ** The padding of [to_json]

    [to_json] puts [padding] before every line of the encoded record.  On a
    text without carriage return that ends a line nowhere but inside, this
    is [padding] at the start and after every line boundary, wherever the
    boundary is: between tokens or inside a string. *)

Definition pad_all (padding : pystr) (s : pystr) : pystr :=
  flat_map (fun c => c :: if is_linebreak c then padding else []) s.

(** What becomes of a string of the record: the boundaries that the
    encoder leaves unescaped, those from U+0020 on, are followed by the
    padding. *)
Definition pad_string (padding : pystr) (s : pystr) : pystr :=
  flat_map
    (fun c => c :: if is_linebreak c && (32 <=? c)%N then padding else []) s.

Fixpoint pad_json (padding : pystr) (v : json) : json :=
  match v with
  | JStr s => JStr (pad_string padding s)
  | JArr lst => JArr (map (pad_json padding) lst)
  | JObj dct =>
      JObj (map (fun kv => (pad_string padding (fst kv),
                            pad_json padding (snd kv))) dct)
  | _ => v
  end.

Definition pad_record (padding : pystr) (comment : record) : record :=
  map (fun kv => (pad_string padding (fst kv), pad_json padding (snd kv)))
      comment.

(** The padding [to_json] uses for an indent. *)
Definition padding_of (indent : option Z) : pystr :=
  match indent with
  | None => []
  | Some i => if (i =? 0)%Z then [] else spaces (2 * i)
  end.

(** A string free of the line boundaries from U+0020 on: U+0085, U+2028
    and U+2029. *)
Definition plain_string (s : pystr) : bool :=
  forallb (fun c => negb (is_linebreak c && (32 <=? c)%N)) s.

(** ** The characters of a record *)

(** The characters of the strings of a value, keys included, in the order
    of the encoding. *)
Fixpoint json_chars (v : json) : pystr :=
  match v with
  | JStr s => s
  | JArr lst => flat_map json_chars lst
  | JObj dct => flat_map (fun kv => fst kv ++ json_chars (snd kv)) dct
  | _ => []
  end.

(** The separators of the compact encoding of a value: one after each key
    and one between two items. *)
Fixpoint separators (v : json) : nat :=
  match v with
  | JArr lst =>
      pred (length lst) + list_sum (map separators lst)
  | JObj dct =>
      pred (length dct) + length dct
      + list_sum (map (fun kv => separators (snd kv)) dct)
  | _ => 0
  end.

Definition non_ascii (c : char) : bool := (128 <=? c)%N.

(** Every character of an encoding is U+0020 or above, or is a newline of
    the indentation. *)
Definition text_char (indent : option Z) (c : char) : Prop :=
  (32 <= c)%N \/ (indent <> None /\ c = LF).

(** A value all of whose strings, keys included, are free of U+0085,
    U+2028 and U+2029. *)
Fixpoint plain_json (v : json) : bool :=
  match v with
  | JStr s => plain_string s
  | JArr lst => forallb plain_json lst
  | JObj dct =>
      forallb (fun kv => plain_string (fst kv) && plain_json (snd kv)) dct
  | _ => true
  end.

Definition plain_record (comment : record) : bool :=
  plain_json (JObj comment).

(** The padding of Array mode: [to_json] with the indent 4. *)
Definition array_padding : pystr := padding_of (Some 4%Z).

(** ** Further observations on a trace *)

(** What was written to standard output, in order. *)
Fixpoint stdout_texts (tr : list event) : list pystr :=
  match tr with
  | [] => []
  | Stdout s :: tr' => s :: stdout_texts tr'
  | _ :: tr' => stdout_texts tr'
  end.



(** The generator [main] builds, lines 72 to 76. *)
Definition generator_of (downloader : Downloader)
    (youtubeid url : option pystr) (language : option pystr) (sort : Z)
    : list record :=
  if str_truthy youtubeid
  then get_comments downloader youtubeid sort language
  else get_comments_from_url downloader url sort language.

(** ** The compact format

    [compact_text v t]: [t] is the JSON text of [v] that has exactly one
    space after every comma between two items and after every colon
    between a key and its value, and no other character between its
    tokens.  A string token copies the characters of its string, escaped
    where JSON requires it. *)

Inductive compact_text : json -> pystr -> Prop :=
| CT_null : compact_text JNull (lit "null")
| CT_true : compact_text (JBool true) (lit "true")
| CT_false : compact_text (JBool false) (lit "false")
| CT_int z : compact_text (JInt z) (int_repr z)
| CT_str s t :
    string_text s t -> compact_text (JStr s) (QUOTE :: t)
| CT_arr_nil : compact_text (JArr []) (lit "[]")
| CT_arr v vs t :
    compact_items (v :: vs) t ->
    compact_text (JArr (v :: vs)) (lit "[" ++ t ++ lit "]")
| CT_obj_nil : compact_text (JObj []) (lit "{}")
| CT_obj kv kvs t :
    compact_members (kv :: kvs) t ->
    compact_text (JObj (kv :: kvs)) (lit "{" ++ t ++ lit "}")

with compact_items : list json -> pystr -> Prop :=
| CI_last v t :
    compact_text v t -> compact_items [v] t
| CI_cons v t vs t' :
    compact_text v t -> compact_items vs t' ->
    compact_items (v :: vs) (t ++ lit ", " ++ t')

with compact_members : list (pystr * json) -> pystr -> Prop :=
| CM_last k tk v tv :
    string_text k tk -> compact_text v tv ->
    compact_members [(k, v)] (QUOTE :: tk ++ lit ": " ++ tv)
| CM_cons k tk v tv kvs t' :
    string_text k tk -> compact_text v tv -> compact_members kvs t' ->
    compact_members ((k, v) :: kvs)
      (QUOTE :: tk ++ lit ": " ++ tv ++ lit ", " ++ t').

(** A record whose two keys are U+2028 alone and U+2028 followed by eight
    spaces. *)
Definition comment_ls_keys : record :=
  [([LINE_SEPARATOR], JInt 1); (LINE_SEPARATOR :: spaces 8, JInt 2)].

(** * Properties *)

(** ** Traces *)

Lemma file_text_app (a b : list event) :
  file_text (a ++ b) = file_text a ++ file_text b.
Proof.
  induction a as [|e a IH]; simpl; [reflexivity|].
  destruct e; simpl; rewrite IH; try reflexivity; apply app_assoc.
Qed.

Lemma emitted_app (a b : list event) :
  emitted (a ++ b) = emitted a + emitted b.
Proof.
  induction a as [|e a IH]; simpl; [reflexivity|].
  destruct e; simpl; rewrite IH; reflexivity.
Qed.

Lemma pulls_app (a b : list event) :
  pulls (a ++ b) = pulls a + pulls b.
Proof.
  induction a as [|e a IH]; simpl; [reflexivity|].
  destruct e; simpl; rewrite IH; reflexivity.
Qed.

Lemma emitted_body pretty comment pulled next_comment count :
  emitted (body pretty comment pulled next_comment count) = 1.
Proof. unfold body; destruct pulled; reflexivity. Qed.

Lemma pulls_body pretty comment pulled next_comment count :
  pulls (body pretty comment pulled next_comment count)
  = if pulled then 1 else 0.
Proof. unfold body; destruct pulled; reflexivity. Qed.

(** The loop unfolded once. *)
Lemma while_comment_eq pretty limit generator comment count :
  while_comment pretty limit generator comment count =
  if truthy comment then
    if limit_reached limit count then
      (body pretty comment false None count, (count + 1)%Z)
    else
      match generator with
      | [] => (body pretty comment true None count, (count + 1)%Z)
      | c :: generator' =>
          (body pretty comment true (Some c) count
             ++ fst (while_comment pretty limit generator' c (count + 1)%Z),
           snd (while_comment pretty limit generator' c (count + 1)%Z))
      end
  else ([], count).
Proof.
  destruct generator as [|c g]; simpl; [reflexivity|].
  destruct (while_comment pretty limit g c (count + 1)%Z); reflexivity.
Qed.

Lemma write_comments_eq pretty limit output generator :
  fst (write_comments pretty limit output generator) =
  [Open output]
  ++ (if pretty
      then [Write (lit "{" ++ [LF] ++ spaces 4
                   ++ [QUOTE] ++ lit "comments" ++ [QUOTE] ++ lit ": [" ++ [LF])]
      else [])
  ++ [Next]
  ++ match generator with
     | [] => []
     | c :: generator' => fst (while_comment pretty limit generator' c 1%Z)
     end
  ++ (if pretty
      then [Write ([LF] ++ spaces 4 ++ lit "]" ++ [LF] ++ lit "}")]
      else [])
  ++ [Close].
Proof.
  unfold write_comments.
  destruct generator as [|c g]; [reflexivity|].
  destruct (while_comment pretty limit g c 1%Z); reflexivity.
Qed.

(** ** The limit *)

Section Limit.

Variable pretty : bool.

Lemma emitted_while_limit (L : Z) (generator : list record) :
  (1 <= L)%Z ->
  forall comment count,
    forallb truthy (comment :: generator) = true ->
    (count <= L)%Z ->
    emitted (fst (while_comment pretty (Some L) generator comment count))
    = Nat.min (S (length generator)) (Z.to_nat (L - count + 1)).
Proof.
  intros HL.
  induction generator as [|c g IH]; intros comment count Ht Hc;
    rewrite while_comment_eq; simpl in Ht;
    apply andb_prop in Ht as [Hcomment Hrest]; rewrite Hcomment;
    unfold limit_reached;
    destruct (Z.eqb_spec L 0) as [->|_]; try lia;
    destruct (Z.geb_spec count L); cbn [fst];
    rewrite ?emitted_app, ?emitted_body; simpl length; try lia.
  rewrite IH by (assumption || lia). lia.
Qed.

Lemma emitted_while_unlimited (limit : option Z) (generator : list record) :
  limit = None \/ limit = Some 0%Z ->
  forall comment count,
    forallb truthy (comment :: generator) = true ->
    emitted (fst (while_comment pretty limit generator comment count))
    = S (length generator).
Proof.
  intros Hlimit.
  assert (Hnever : forall count, limit_reached limit count = false)
    by (destruct Hlimit as [-> | ->]; reflexivity).
  induction generator as [|c g IH]; intros comment count Ht;
    rewrite while_comment_eq; simpl in Ht;
    apply andb_prop in Ht as [Hcomment Hrest]; rewrite Hcomment, Hnever;
    cbn [fst]; rewrite ?emitted_app, ?emitted_body; simpl length; try lia.
  rewrite IH by assumption. lia.
Qed.

Lemma pulls_while_limit (L : Z) (generator : list record) :
  (1 <= L)%Z ->
  forall comment count,
    forallb truthy (comment :: generator) = true ->
    (count <= L)%Z ->
    (Z.to_nat (L - count) <= length generator) ->
    pulls (fst (while_comment pretty (Some L) generator comment count))
    = Z.to_nat (L - count).
Proof.
  intros HL.
  induction generator as [|c g IH]; intros comment count Ht Hc Hlen;
    rewrite while_comment_eq; simpl in Ht;
    apply andb_prop in Ht as [Hcomment Hrest]; rewrite Hcomment;
    unfold limit_reached;
    destruct (Z.eqb_spec L 0) as [->|_]; try lia;
    destruct (Z.geb_spec count L); cbn [fst];
    rewrite ?pulls_app, ?pulls_body; simpl in Hlen |- *; try lia.
  rewrite IH by (assumption || lia). lia.
Qed.

End Limit.

Lemma emitted_write_comments pretty limit output generator :
  emitted (fst (write_comments pretty limit output generator))
  = match generator with
    | [] => 0
    | c :: g => emitted (fst (while_comment pretty limit g c 1%Z))
    end.
Proof.
  rewrite write_comments_eq.
  destruct pretty, generator; simpl; rewrite ?emitted_app; simpl; lia.
Qed.

Lemma pulls_write_comments pretty limit output generator :
  pulls (fst (write_comments pretty limit output generator))
  = S match generator with
      | [] => 0
      | c :: g => pulls (fst (while_comment pretty limit g c 1%Z))
      end.
Proof.
  rewrite write_comments_eq.
  destruct pretty, generator; simpl; rewrite ?pulls_app; simpl; lia.
Qed.

(** X16: with records that are all non-empty, a limit [L >= 1] over a
    producer of at least [L] records asks the producer exactly [L]
    times. *)
Lemma pulls_exactly_limit pretty output (L : Z) (generator : list record) :
  (1 <= L)%Z ->
  forallb truthy generator = true ->
  Z.to_nat L <= length generator ->
  pulls (fst (write_comments pretty (Some L) output generator)) = Z.to_nat L.
Proof.
  intros HL Ht Hlen. rewrite pulls_write_comments.
  destruct generator as [|c g]; simpl in Hlen; [lia|].
  rewrite pulls_while_limit by (assumption || lia). lia.
Qed.

(** X17: with a non-empty first record, a negative limit stops the writer
    after one record. *)
Lemma negative_limit_emits_one pretty output (L : Z) c (generator : list record) :
  (L < 0)%Z ->
  truthy c = true ->
  emitted (fst (write_comments pretty (Some L) output (c :: generator))) = 1.
Proof.
  intros HL Ht. rewrite emitted_write_comments, while_comment_eq, Ht.
  unfold limit_reached.
  destruct (Z.eqb_spec L 0); [lia|].
  destruct (Z.geb_spec 1 L); [|lia].
  apply emitted_body.
Qed.

(** ** The writer on the limit and on empty records *)

(** C3, as amended: for a producer of N non-empty records and a limit
    [L >= 1], the writer emits exactly [min N L] records. *)
Theorem limit_emits_min pretty output (L : Z) (generator : list record) :
  (1 <= L)%Z ->
  forallb truthy generator = true ->
  emitted (fst (write_comments pretty (Some L) output generator))
  = Nat.min (length generator) (Z.to_nat L).
Proof.
  intros HL Ht. rewrite emitted_write_comments.
  destruct generator as [|c g]; [reflexivity|].
  rewrite emitted_while_limit by (assumption || lia).
  simpl length. lia.
Qed.

Lemma limit_emits_min_witness :
  (1 <= 2)%Z
  /\ forallb truthy [comment_a; comment_b; comment_c] = true
  /\ emitted (fst (write_comments false (Some 2%Z) out_path
                     [comment_a; comment_b; comment_c]))
     = Nat.min 3 (Z.to_nat 2).
Proof.
  split; [lia|]. split; [reflexivity|].
  apply (@limit_emits_min false out_path 2%Z
           [comment_a; comment_b; comment_c]); [lia | reflexivity].
Defined.

(** C3 as stated fails at [L = 0]: the limit is then ignored, and the one
    record of the producer is written where [min 1 0 = 0] are promised. *)
Lemma limit_zero_counterexample :
  emitted (fst (write_comments false (Some 0%Z) out_path [comment_a]))
  <> Nat.min 1 (Z.to_nat 0).
Proof. vm_compute. discriminate. Qed.

(** X18: a limit of zero, like no limit, lets every non-empty record
    through. *)
Lemma limit_zero_is_no_limit pretty output limit (generator : list record) :
  limit = None \/ limit = Some 0%Z ->
  forallb truthy generator = true ->
  emitted (fst (write_comments pretty limit output generator))
  = length generator.
Proof.
  intros Hl Ht. rewrite emitted_write_comments.
  destruct generator as [|c g]; [reflexivity|].
  apply emitted_while_unlimited; assumption.
Qed.

(** C4: the producer yields a record, an empty record and a third record,
    with no limit.  The loop asks the producer twice, writes one record
    and stops: the empty record is pulled and not written, and the third
    is never asked for. *)
Theorem empty_record_ends_the_loop :
  let tr := fst (write_comments false None out_path
                   [comment_a; empty_comment; comment_b]) in
  pulls tr = 2 /\ emitted tr = 1
  /\ file_text tr = to_json comment_a None.
Proof. vm_compute. repeat split. Qed.

(** C6: with the limit 2 and a producer of two records the first of which
    is empty, the producer is asked once, not twice. *)
Theorem empty_record_saves_a_pull :
  pulls (fst (write_comments false (Some 2%Z) out_path
                [empty_comment; comment_a])) = 1.
Proof. reflexivity. Qed.

(** C10: with the limit -1 and a producer whose only record is empty,
    no record is written. *)
Theorem negative_limit_on_empty_record :
  emitted (fst (write_comments false (Some (-1)%Z) out_path
                  [empty_comment])) = 0.
Proof. reflexivity. Qed.

(** ** The separators written by the loop *)

(** C5: in Array mode a record followed by another one is written as its
    encoded text and a comma, with no newline; the next record starts on
    the same line. *)
Theorem array_mode_appends_comma_only :
  (forall comment next_comment count,
      body true comment true (Some next_comment) count
      = [Next; Print (to_json comment (Some 4%Z) ++ lit ",");
         Stdout (progress count)])
  /\ file_text (fst (write_comments true None out_path
                       [comment_a; comment_b]))
     = lit "{" ++ [LF]
       ++ lit "    " ++ quoted "comments" ++ lit ": [" ++ [LF]
       ++ lit "        {" ++ [LF]
       ++ lit "            " ++ quoted "a" ++ lit ": 1" ++ [LF]
       ++ lit "        },        {" ++ [LF]
       ++ lit "            " ++ quoted "b" ++ lit ": 2" ++ [LF]
       ++ lit "        }" ++ [LF]
       ++ lit "    ]" ++ [LF]
       ++ lit "}".
Proof. split; reflexivity. Qed.

(** ** The command line *)




(** ** Induction on values *)

Lemma json_ind (P : json -> Prop) :
  P JNull ->
  (forall b, P (JBool b)) ->
  (forall z, P (JInt z)) ->
  (forall s, P (JStr s)) ->
  (forall lst, Forall P lst -> P (JArr lst)) ->
  (forall dct, Forall (fun kv => P (snd kv)) dct -> P (JObj dct)) ->
  forall v, P v.
Proof.
  intros Hnull Hbool Hint Hstr Harr Hobj.
  fix IH 1. intros [ | b | z | s | lst | dct].
  - exact Hnull.
  - apply Hbool.
  - apply Hint.
  - apply Hstr.
  - apply Harr. induction lst as [|v lst IHl]; constructor; [apply IH | exact IHl].
  - apply Hobj. induction dct as [|[k v] dct IHd]; constructor;
      [apply IH | exact IHd].
Qed.

(** ** Numbers *)

Lemma to_uint_canonical (p : positive) : canonical (Pos.to_uint p).
Proof.
  assert (Hfix : Decimal.unorm (Pos.to_uint p) = Pos.to_uint p).
  { rewrite <- DecimalPos.Unsigned.to_of, DecimalPos.Unsigned.of_to.
    reflexivity. }
  unfold Decimal.unorm in Hfix.
  destruct (Decimal.nzhead (Pos.to_uint p)) eqn:Hhead;
    try (rewrite <- Hfix; exact I).
  exfalso. eapply DecimalFacts.nzhead_nonzero. exact Hhead.
Qed.

Lemma to_int_canonical (z : Z) :
  match Z.to_int z with
  | Decimal.Pos u | Decimal.Neg u => canonical u
  end.
Proof. destruct z; simpl; try apply to_uint_canonical. exact I. Qed.

Lemma scan_digits_uint_repr (u : Decimal.uint) (rest : pystr) :
  no_digit_head rest ->
  scan_digits (uint_repr u ++ rest) = (u, rest).
Proof.
  intros Hrest.
  induction u; simpl; try (rewrite IHu; reflexivity).
  destruct rest as [|c rest]; [reflexivity|].
  simpl in *. rewrite Hrest. reflexivity.
Qed.

Lemma scan_uint_uint_repr (u : Decimal.uint) (rest : pystr) :
  canonical u -> no_digit_head rest ->
  scan_uint (uint_repr u ++ rest) = Some (u, rest).
Proof.
  intros Hu Hrest. unfold scan_uint.
  rewrite scan_digits_uint_repr by assumption.
  destruct u as [|u| | | | | | | | | ]; try reflexivity; try contradiction.
  destruct u; try contradiction. reflexivity.
Qed.

Lemma uint_repr_head (u : Decimal.uint) :
  canonical u ->
  exists c t, uint_repr u = c :: t /\ (48 <= c <= 57)%N.
Proof.
  destruct u; simpl; try contradiction; intros _;
    eexists; eexists; (split; [reflexivity | lia]).
Qed.

Lemma int_repr_head (z : Z) :
  exists c t, int_repr z = c :: t /\ (c = 45 \/ 48 <= c <= 57)%N.
Proof.
  unfold int_repr. pose proof (to_int_canonical z) as Hc.
  destruct (Z.to_int z) as [u|u].
  - destruct (uint_repr_head u Hc) as (c & t & -> & Hr).
    exists c, t. split; [reflexivity | right; exact Hr].
  - eexists; eexists. split; [reflexivity | left; reflexivity].
Qed.

Lemma scan_number_int_repr (z : Z) (rest : pystr) :
  no_digit_head rest ->
  scan_number (int_repr z ++ rest) = Some (JInt z, rest).
Proof.
  intros Hrest. unfold int_repr.
  pose proof (to_int_canonical z) as Hc.
  pose proof (DecimalZ.of_to z) as Hz.
  destruct (Z.to_int z) as [u|u].
  - destruct (uint_repr_head u Hc) as (c & t & Hu & Hr).
    unfold scan_number. rewrite Hu. cbn [app].
    destruct (N.eqb_spec c 45); [lia|].
    change (c :: t ++ rest) with ((c :: t) ++ rest). rewrite <- Hu.
    rewrite scan_uint_uint_repr by assumption. rewrite Hz. reflexivity.
  - unfold scan_number. cbn [app].
    rewrite N.eqb_refl, scan_uint_uint_repr by assumption.
    rewrite Hz. reflexivity.
Qed.

Lemma uint_repr_digits (u : Decimal.uint) :
  Forall (fun c => (48 <= c <= 57)%N) (uint_repr u).
Proof. induction u; simpl; constructor; (lia || assumption). Qed.

Lemma int_repr_chars (z : Z) :
  Forall (fun c => (c = 45 \/ 48 <= c <= 57)%N) (int_repr z).
Proof.
  unfold int_repr.
  destruct (Z.to_int z); [|constructor; [left; reflexivity|]];
    (eapply Forall_impl; [|apply uint_repr_digits]); intros; right; assumption.
Qed.

(** ** Characters and strings *)

Ltac char_cases :=
  repeat match goal with
    | |- context [N.eqb ?a ?b] => destruct (N.eqb_spec a b)
    | |- context [N.leb ?a ?b] => destruct (N.leb_spec a b)
    | |- context [N.ltb ?a ?b] => destruct (N.ltb_spec a b)
    | H : context [N.eqb ?a ?b] |- _ => destruct (N.eqb_spec a b)
    | H : context [N.leb ?a ?b] |- _ => destruct (N.leb_spec a b)
    | H : context [N.ltb ?a ?b] |- _ => destruct (N.ltb_spec a b)
    end;
  simpl in *; try reflexivity; try discriminate; try lia.

Lemma needs_escape_cases (c : char) :
  needs_escape c = true ->
  (exists n, n < 32 /\ c = N.of_nat n) \/ c = QUOTE \/ c = BACKSLASH.
Proof.
  unfold needs_escape, QUOTE, BACKSLASH. intros H.
  destruct (N.ltb_spec c 32).
  - left. exists (N.to_nat c). split; lia.
  - right. char_cases.
Qed.

(** The thirty-four characters that need an escape, one by one. *)
Ltac escape_cases c H tac :=
  let n := fresh "n" in
  let Hn := fresh "Hn" in
  destruct (needs_escape_cases c H) as [(n & Hn & ->) | [-> | ->]];
  [ do 32 (destruct n as [|n]; [solve [tac]|]); lia | tac | tac ].

Lemma scan_escape (c : char) (r : pystr) :
  needs_escape c = true ->
  scan_string (escape_char c ++ r) = cons_fst c (scan_string r).
Proof. intros H. escape_cases c H reflexivity. Qed.

Lemma escape_char_printable (c : char) :
  needs_escape c = true ->
  Forall (fun d => (33 <= d < 127)%N) (escape_char c).
Proof.
  intros H.
  escape_cases c H ltac:(vm_compute; repeat constructor; discriminate).
Qed.

Lemma escape_char_raw (c : char) :
  needs_escape c = false -> escape_char c = [c].
Proof.
  unfold needs_escape, escape_char, QUOTE, BACKSLASH. intros H. char_cases.
Qed.

Lemma scan_raw (c : char) (r : pystr) :
  needs_escape c = false ->
  scan_string (c :: r) = cons_fst c (scan_string r).
Proof.
  unfold needs_escape, QUOTE, BACKSLASH. intros H. cbn [scan_string].
  unfold QUOTE, BACKSLASH. char_cases.
Qed.

Lemma scan_string_text (s t : pystr) :
  string_text s t ->
  forall rest, scan_string (t ++ rest) = Some (s, rest).
Proof.
  induction 1 as [| c s t Hc _ IH | c s t Hc _ IH]; intros rest.
  - reflexivity.
  - cbn [app]. rewrite scan_raw, IH by assumption. reflexivity.
  - rewrite <- app_assoc, scan_escape, IH by assumption. reflexivity.
Qed.

(** ** Padding *)

Lemma pad_all_app p (a b : pystr) :
  pad_all p (a ++ b) = pad_all p a ++ pad_all p b.
Proof. apply flat_map_app. Qed.

Lemma pad_all_id p (s : pystr) :
  Forall (fun c => is_linebreak c = false) s -> pad_all p s = s.
Proof.
  induction 1 as [|c s Hc _ IH]; [reflexivity|].
  unfold pad_all in *. cbn [flat_map]. rewrite Hc, IH. reflexivity.
Qed.

Lemma pad_all_nil (s : pystr) : pad_all [] s = s.
Proof.
  induction s as [|c s IH]; [reflexivity|].
  unfold pad_all in *. cbn [flat_map]. rewrite IH.
  destruct (is_linebreak c); reflexivity.
Qed.

Lemma pad_string_nil (s : pystr) : pad_string [] s = s.
Proof.
  induction s as [|c s IH]; [reflexivity|].
  unfold pad_string in *. cbn [flat_map]. rewrite IH.
  destruct (is_linebreak c && (32 <=? c)%N); reflexivity.
Qed.

Lemma pad_string_plain p (s : pystr) :
  plain_string s = true -> pad_string p s = s.
Proof.
  induction s as [|c s IH]; [reflexivity|].
  unfold plain_string, pad_string in *. cbn [forallb flat_map].
  intros H. apply andb_prop in H as [Hc Hs]. rewrite IH by assumption.
  apply negb_true_iff in Hc. rewrite Hc. reflexivity.
Qed.

Lemma printable_not_linebreak (d : char) :
  (32 <= d < 127)%N -> is_linebreak d = false.
Proof. unfold is_linebreak. intros H. char_cases. Qed.

Lemma pad_all_lit_printable p (s : pystr) :
  Forall (fun d => (32 <= d < 127)%N) s -> pad_all p s = s.
Proof.
  intros H. apply pad_all_id. eapply Forall_impl; [|exact H].
  intros d. apply printable_not_linebreak.
Qed.

(** A string body for the padded string, from the padded encoding. *)
Lemma string_text_padded (n : nat) (s : pystr) :
  string_text (pad_string (repeat SPACE n) s)
    (pad_all (repeat SPACE n) (flat_map escape_char s ++ [QUOTE])).
Proof.
  set (p := repeat SPACE n).
  assert (Hpad : forall s' t', string_text s' t' -> string_text (p ++ s') (p ++ t')).
  { intros s' t' H. subst p. induction n as [|n IH]; [exact H|].
    cbn [repeat app]. apply ST_raw; [reflexivity | exact IH]. }
  induction s as [|c s IH].
  - apply ST_end.
  - cbn [flat_map]. rewrite <- app_assoc, pad_all_app.
    unfold pad_string. cbn [flat_map]. fold (pad_string p s).
    destruct (needs_escape c) eqn:Hc.
    + rewrite pad_all_lit_printable.
      2:{ eapply Forall_impl; [|apply escape_char_printable; exact Hc].
          intros d; simpl; lia. }
      assert (Hlow : is_linebreak c && (32 <=? c)%N = false).
      { escape_cases c Hc reflexivity. }
      rewrite Hlow. apply ST_esc; assumption.
    + rewrite escape_char_raw by assumption.
      unfold pad_all at 1. cbn [flat_map]. rewrite app_nil_r.
      assert (H32 : (32 <=? c)%N = true).
      { unfold needs_escape in Hc. char_cases. }
      rewrite H32, andb_true_r. cbn [app].
      apply ST_raw; [assumption|].
      destruct (is_linebreak c); [apply Hpad|]; exact IH.
Qed.

(** ** The decoder accepts the grammar *)

Lemma skip_ws_run (w : pystr) (c : char) (r : pystr) :
  all_ws w -> is_ws c = false -> skip_ws (w ++ c :: r) = c :: r.
Proof.
  unfold all_ws. induction w as [|d w IH]; cbn [app skip_ws forallb].
  - intros _ ->. reflexivity.
  - intros H Hc. apply andb_prop in H as [-> Hw]. apply IH; assumption.
Qed.

Lemma no_digit_head_run (w : pystr) (c : char) (r : pystr) :
  all_ws w -> digit_of c = None -> no_digit_head (w ++ c :: r).
Proof.
  unfold all_ws. destruct w as [|d w]; cbn [app no_digit_head forallb].
  - trivial.
  - intros H _. apply andb_prop in H as [Hd _].
    unfold is_ws in Hd. unfold digit_of. char_cases.
Qed.

Lemma parse_value_S fuel s :
  parse_value (S fuel) s =
  match skip_ws s with
  | [] => None
  | c :: s' =>
      if (c =? QUOTE)%N then
        match scan_string s' with
        | Some (str, r) => Some (JStr str, r)
        | None => None
        end
      else if (c =? 91)%N then
        match skip_ws s' with
        | [] => None
        | d :: r =>
            if (d =? 93)%N then Some (JArr [], r)
            else
              match parse_elems fuel s' with
              | Some (vs, r') => Some (JArr vs, r')
              | None => None
              end
        end
      else if (c =? 123)%N then
        match skip_ws s' with
        | [] => None
        | d :: r =>
            if (d =? 125)%N then Some (JObj [], r)
            else
              match parse_members fuel s' with
              | Some (kvs, r') => Some (JObj kvs, r')
              | None => None
              end
        end
      else if (c =? 110)%N then literal "null" JNull (c :: s')
      else if (c =? 116)%N then literal "true" (JBool true) (c :: s')
      else if (c =? 102)%N then literal "false" (JBool false) (c :: s')
      else scan_number (c :: s')
  end.
Proof. reflexivity. Qed.

Lemma parse_elems_S fuel s :
  parse_elems (S fuel) s =
  match parse_value fuel s with
  | None => None
  | Some (v, r) =>
      match skip_ws r with
      | [] => None
      | d :: r' =>
          if (d =? 93)%N then Some ([v], r')
          else if (d =? 44)%N then cons_fst v (parse_elems fuel r')
          else None
      end
  end.
Proof. reflexivity. Qed.

Lemma parse_members_S fuel s :
  parse_members (S fuel) s =
  match skip_ws s with
  | [] => None
  | q :: s1 =>
      if (q =? QUOTE)%N then
        match scan_string s1 with
        | None => None
        | Some (key, s2) =>
            match skip_ws s2 with
            | [] => None
            | colon :: s3 =>
                if (colon =? 58)%N then
                  match parse_value fuel s3 with
                  | None => None
                  | Some (v, r) =>
                      match skip_ws r with
                      | [] => None
                      | d :: r' =>
                          if (d =? 125)%N then Some ([(key, v)], r')
                          else if (d =? 44)%N
                          then cons_fst (key, v) (parse_members fuel r')
                          else None
                      end
                  end
                else None
            end
        end
      else None
  end.
Proof. reflexivity. Qed.

Lemma parse_value_ws fuel (c : char) (s : pystr) :
  is_ws c = true -> parse_value fuel (c :: s) = parse_value fuel s.
Proof.
  intros Hc. destruct fuel; [reflexivity|].
  rewrite !parse_value_S. cbn [skip_ws]. rewrite Hc. reflexivity.
Qed.

(** A value text starts, after white space, with a character that opens a
    value. *)
Lemma value_text_head v t :
  value_text v t ->
  forall rest, exists c r,
    skip_ws (t ++ rest) = c :: r /\ c <> 93%N /\ c <> 125%N.
Proof.
  induction 1 as [c v t Hc _ IH | | | | z | s t _ | w _ | v vs t _
                 | w _ | kv kvs t _]; intros rest;
    try (eexists; eexists; split; [reflexivity | split; discriminate]).
  - cbn [app skip_ws]. rewrite Hc. apply IH.
  - destruct (int_repr_head z) as (c & t & -> & Hr).
    exists c, (t ++ rest). cbn [app skip_ws].
    replace (is_ws c) with false by (unfold is_ws; char_cases).
    split; [reflexivity | lia].
Qed.

Lemma elems_text_head vs t :
  elems_text vs t ->
  forall rest, exists c r, skip_ws (t ++ rest) = c :: r /\ c <> 93%N.
Proof.
  intros H rest.
  destruct H as [v t w Hv _ | v t w vs t' Hv _ _]; rewrite <- app_assoc.
  - destruct (value_text_head Hv ((w ++ [93%N]) ++ rest))
      as (c & r & E & Hc & _).
    exists c, r. split; [exact E | exact Hc].
  - destruct (value_text_head Hv ((w ++ 44%N :: t') ++ rest))
      as (c & r & E & Hc & _).
    exists c, r. split; [exact E | exact Hc].
Qed.

Lemma members_text_head kvs t :
  members_text kvs t ->
  forall rest, exists r, skip_ws (t ++ rest) = QUOTE :: r.
Proof.
  intros H rest.
  destruct H; rewrite <- app_assoc; cbn [app];
    eexists; apply skip_ws_run; (assumption || reflexivity).
Qed.

Ltac enough_fuel fuel H :=
  destruct fuel as [|fuel];
  [ exfalso; simpl in H; lia | ];
  repeat first [ rewrite length_app in H | progress cbn [length] in H ].

Lemma decoder_accepts :
  (forall v t, value_text v t ->
     forall fuel rest, length t < fuel -> no_digit_head rest ->
       parse_value fuel (t ++ rest) = Some (v, rest))
  /\ (forall vs t, elems_text vs t ->
        forall fuel rest, length t < fuel ->
          parse_elems fuel (t ++ rest) = Some (vs, rest))
  /\ (forall kvs t, members_text kvs t ->
        forall fuel rest, length t < fuel ->
          parse_members fuel (t ++ rest) = Some (kvs, rest)).
Proof.
  apply json_text_mutind.
  - (* white space *)
    intros c v t Hc _ IH fuel rest Hlen Hrest.
    cbn [app]. rewrite parse_value_ws by assumption.
    apply IH; [simpl in Hlen; lia | assumption].
  - intros fuel rest Hlen _. enough_fuel fuel Hlen. reflexivity.
  - intros fuel rest Hlen _. enough_fuel fuel Hlen. reflexivity.
  - intros fuel rest Hlen _. enough_fuel fuel Hlen. reflexivity.
  - (* integers *)
    intros z fuel rest Hlen Hrest. enough_fuel fuel Hlen.
    rewrite parse_value_S.
    pose proof (scan_number_int_repr z rest Hrest) as Hscan.
    destruct (int_repr_head z) as (c & t & E & Hr).
    rewrite E in *. cbn [app skip_ws] in *.
    replace (is_ws c) with false by (unfold is_ws; char_cases).
    unfold QUOTE.
    repeat match goal with
      | |- context [N.eqb c ?b] =>
          destruct (N.eqb_spec c b); [exfalso; lia|]
      end.
    exact Hscan.
  - (* strings *)
    intros s t Hs fuel rest Hlen _. enough_fuel fuel Hlen.
    rewrite parse_value_S. cbn [app skip_ws]. change (is_ws QUOTE) with false.
    cbv iota. rewrite N.eqb_refl, (scan_string_text Hs). reflexivity.
  - (* the empty array *)
    intros w Hw fuel rest Hlen _. enough_fuel fuel Hlen.
    rewrite parse_value_S. cbn [app skip_ws]. change (is_ws 91%N) with false.
    cbv iota. change (91 =? QUOTE)%N with false. cbv iota.
    rewrite N.eqb_refl, <- app_assoc. cbn [app].
    rewrite skip_ws_run by (assumption || reflexivity).
    reflexivity.
  - (* arrays *)
    intros v vs t Ht IH fuel rest Hlen _. enough_fuel fuel Hlen.
    rewrite parse_value_S. cbn [app skip_ws]. change (is_ws 91%N) with false.
    cbv iota. change (91 =? QUOTE)%N with false. cbv iota.
    rewrite N.eqb_refl.
    destruct (elems_text_head Ht rest) as (c & r & -> & Hc).
    destruct (N.eqb_spec c 93); [contradiction|].
    rewrite IH by lia. reflexivity.
  - (* the empty object *)
    intros w Hw fuel rest Hlen _. enough_fuel fuel Hlen.
    rewrite parse_value_S. cbn [app skip_ws]. change (is_ws 123%N) with false.
    cbv iota. change (123 =? QUOTE)%N with false.
    change (123 =? 91)%N with false. cbv iota.
    rewrite N.eqb_refl, <- app_assoc. cbn [app].
    rewrite skip_ws_run by (assumption || reflexivity).
    reflexivity.
  - (* objects *)
    intros kv kvs t Ht IH fuel rest Hlen _. enough_fuel fuel Hlen.
    rewrite parse_value_S. cbn [app skip_ws]. change (is_ws 123%N) with false.
    cbv iota. change (123 =? QUOTE)%N with false.
    change (123 =? 91)%N with false. cbv iota.
    rewrite N.eqb_refl.
    destruct (members_text_head Ht rest) as (r & ->).
    change (QUOTE =? 125)%N with false. cbv iota.
    rewrite IH by lia. reflexivity.
  - (* the last item *)
    intros v t w _ IHv Hw fuel rest Hlen. enough_fuel fuel Hlen.
    rewrite parse_elems_S, <- !app_assoc.
    rewrite IHv by (lia || (apply no_digit_head_run; [assumption|reflexivity])).
    cbn [app]. rewrite skip_ws_run by (assumption || reflexivity).
    reflexivity.
  - (* an item and a comma *)
    intros v t w vs t' _ IHv Hw _ IHvs fuel rest Hlen. enough_fuel fuel Hlen.
    rewrite parse_elems_S, <- !app_assoc.
    rewrite IHv by (lia || (apply no_digit_head_run; [assumption|reflexivity])).
    cbn [app]. rewrite skip_ws_run by (assumption || reflexivity).
    change (44 =? 93)%N with false. cbv iota. rewrite N.eqb_refl.
    rewrite IHvs by lia. reflexivity.
  - (* the last member *)
    intros k tk w0 w1 v tv w2 Hw0 Hk Hw1 _ IHv Hw2 fuel rest Hlen.
    enough_fuel fuel Hlen.
    rewrite parse_members_S, <- !app_assoc. cbn [app].
    rewrite skip_ws_run by (assumption || reflexivity).
    rewrite N.eqb_refl, <- !app_assoc, (scan_string_text Hk).
    cbn [app]. rewrite skip_ws_run by (assumption || reflexivity).
    rewrite N.eqb_refl, <- !app_assoc.
    rewrite IHv by (lia || (apply no_digit_head_run; [assumption|reflexivity])).
    cbn [app]. rewrite skip_ws_run by (assumption || reflexivity).
    reflexivity.
  - (* a member and a comma *)
    intros k tk w0 w1 v tv w2 kvs t' Hw0 Hk Hw1 _ IHv Hw2 _ IHkvs fuel rest Hlen.
    enough_fuel fuel Hlen.
    rewrite parse_members_S, <- !app_assoc. cbn [app].
    rewrite skip_ws_run by (assumption || reflexivity).
    rewrite N.eqb_refl, <- !app_assoc, (scan_string_text Hk).
    cbn [app]. rewrite skip_ws_run by (assumption || reflexivity).
    rewrite N.eqb_refl, <- !app_assoc.
    rewrite IHv by (lia || (apply no_digit_head_run; [assumption|reflexivity])).
    cbn [app]. rewrite skip_ws_run by (assumption || reflexivity).
    change (44 =? 125)%N with false. cbv iota. rewrite N.eqb_refl.
    rewrite IHkvs by lia. reflexivity.
Qed.

(** A text of the grammar is decoded to its value. *)
Lemma json_loads_value_text v t :
  value_text v t -> json_loads t = Some v.
Proof.
  intros H. unfold json_loads.
  rewrite <- (app_nil_r t) at 2.
  rewrite (proj1 decoder_accepts v t H) by (simpl; trivial; lia).
  reflexivity.
Qed.

(** ** The encoder writes texts of the grammar *)

Lemma all_ws_app (a b : pystr) : all_ws a -> all_ws b -> all_ws (a ++ b).
Proof. unfold all_ws. rewrite forallb_app. intros -> ->. reflexivity. Qed.

Lemma all_ws_spaces (n : nat) : all_ws (repeat SPACE n).
Proof. induction n; [reflexivity | exact IHn]. Qed.

Lemma value_text_ws_run (w : pystr) v t :
  all_ws w -> value_text v t -> value_text v (w ++ t).
Proof.
  unfold all_ws. induction w as [|c w IH]; cbn [app forallb]; [trivial|].
  intros H Ht. apply andb_prop in H as [Hc Hw].
  apply VT_ws; [exact Hc | apply IH; assumption].
Qed.

Lemma pad_all_spaces p (n : nat) : pad_all p (repeat SPACE n) = repeat SPACE n.
Proof.
  apply pad_all_id. apply Forall_forall. intros c Hc.
  apply repeat_spec in Hc. subst c. reflexivity.
Qed.

Section Encoder.

Variable n : nat.
Variable indent : option Z.

Let p : pystr := repeat SPACE n.

Lemma padded_newline_indent (level : nat) :
  all_ws (pad_all p (newline_indent indent level)).
Proof.
  unfold newline_indent. destruct indent as [i|]; [|reflexivity].
  change (LF :: ?l) with ([LF] ++ l).
  rewrite pad_all_app, pad_all_spaces.
  change (pad_all p [LF]) with (LF :: p ++ []). rewrite app_nil_r.
  apply (@all_ws_app (LF :: p)); [|apply all_ws_spaces].
  apply (@all_ws_app [LF]); [reflexivity | apply all_ws_spaces].
Qed.

Lemma padded_separator (level : nat) :
  exists w, all_ws w
    /\ pad_all p (item_separator indent ++ newline_indent indent level)
       = 44%N :: w.
Proof.
  rewrite pad_all_app.
  destruct indent as [i|] eqn:E.
  - exists (pad_all p (newline_indent (Some i) level)). split.
    + rewrite <- E. apply padded_newline_indent.
    + reflexivity.
  - exists [SPACE]. split; reflexivity.
Qed.

Section Items.

Variable enc : json -> pystr.
Variable sep wsep wend : pystr.
Hypothesis Hsep : pad_all p sep = 44%N :: wsep.
Hypothesis Hwsep : all_ws wsep.
Hypothesis Hwend : all_ws wend.

Lemma elems_text_items (vs : list json) :
  Forall (fun v => value_text (pad_json p v) (pad_all p (enc v))) vs ->
  forall v tv,
    value_text (pad_json p v) tv ->
    elems_text (pad_json p v :: map (pad_json p) vs)
      (tv ++ pad_all p (iterencode_items enc sep false vs) ++ wend ++ [93%N]).
Proof.
  induction 1 as [|v' vs Hv' _ IH]; intros v tv Hv.
  - apply (ET_last Hv Hwend).
  - cbn [iterencode_items map]. rewrite !pad_all_app, Hsep.
    change (tv ++ ?x) with (tv ++ [] ++ x).
    rewrite <- !app_assoc. cbn [app].
    apply (@ET_cons _ tv []); [exact Hv | reflexivity |].
    rewrite app_assoc. apply IH.
    apply value_text_ws_run; assumption.
Qed.

Lemma members_text_pairs (dct : list (pystr * json)) :
  Forall (fun kv => value_text (pad_json p (snd kv)) (pad_all p (enc (snd kv))))
    dct ->
  forall w0 k v,
    all_ws w0 ->
    value_text (pad_json p v) (pad_all p (enc v)) ->
    members_text
      ((pad_string p k, pad_json p v)
         :: map (fun kv => (pad_string p (fst kv), pad_json p (snd kv))) dct)
      (w0 ++ pad_all p (py_encode_basestring k ++ key_separator ++ enc v)
          ++ pad_all p (iterencode_pairs enc sep false dct)
          ++ wend ++ [125%N]).
Proof.
  assert (Hmember : forall k v,
    pad_all p (py_encode_basestring k ++ key_separator ++ enc v)
    = QUOTE :: pad_all p (flat_map escape_char k ++ [QUOTE])
        ++ [] ++ 58%N :: [SPACE] ++ pad_all p (enc v)).
  { intros k v. unfold py_encode_basestring.
    rewrite (pad_all_app p (QUOTE :: _)), (pad_all_app p key_separator).
    reflexivity. }
  induction 1 as [|[k' v'] dct Hv' _ IH]; intros w0 k v Hw0 Hv;
    rewrite Hmember.
  - cbn [iterencode_pairs map]. change (pad_all p []) with (@nil char).
    cbn [app]. rewrite <- !app_assoc. cbn [app].
    change (pad_all p (enc v) ++ wend ++ [125%N])
      with (pad_all p (enc v) ++ wend ++ [125%N]).
    apply (@MT_last (pad_string p k) _ w0 [] (pad_json p v)
             (SPACE :: pad_all p (enc v)) wend);
      try assumption; try reflexivity.
    + apply string_text_padded.
    + apply VT_ws; [reflexivity | exact Hv].
  - cbn [iterencode_pairs map fst snd].
    set (K := pad_all p (flat_map escape_char k ++ [QUOTE])).
    set (V := pad_all p (enc v)).
    set (M := py_encode_basestring k' ++ key_separator ++ enc v').
    set (D := iterencode_pairs enc sep false dct).
    replace (pad_all p (sep ++ py_encode_basestring k' ++ key_separator
                          ++ enc v' ++ D))
      with (44%N :: wsep ++ pad_all p M ++ pad_all p D).
    2:{ rewrite pad_all_app, Hsep, <- pad_all_app. subst M.
        rewrite <- !app_assoc. reflexivity. }
    match goal with
    | |- members_text _ ?t =>
        replace t
          with (w0 ++ QUOTE :: K ++ [] ++ 58%N :: (SPACE :: V) ++ []
                  ++ 44%N :: wsep ++ pad_all p M ++ pad_all p D
                  ++ wend ++ [125%N])
          by (cbn [app]; rewrite <- !app_assoc; reflexivity)
    end.
    apply MT_cons; try assumption; try reflexivity.
    + apply string_text_padded.
    + apply VT_ws; [reflexivity | exact Hv].
    + apply (IH wsep k' v' Hwsep Hv').
Qed.

End Items.

Lemma iterencode_value_text (v : json) :
  forall level,
    value_text (pad_json p v) (pad_all p (iterencode indent level v)).
Proof.
  induction v as [ | b | z | s | lst IH | dct IH] using json_ind;
    intros level.
  - exact VT_null.
  - destruct b; [exact VT_true | exact VT_false].
  - cbn [iterencode pad_json]. rewrite pad_all_id; [apply VT_int|].
    eapply Forall_impl; [|apply int_repr_chars].
    intros c Hc. unfold is_linebreak. char_cases.
  - cbn [iterencode pad_json]. unfold py_encode_basestring.
    change (pad_all p (QUOTE :: ?x)) with (QUOTE :: pad_all p x).
    apply VT_str, string_text_padded.
  - destruct lst as [|v vs]; [exact (@VT_arr_nil [] eq_refl)|].
    cbn [iterencode pad_json map].
    destruct (padded_separator (S level)) as (wsep & Hwsep & Hsep).
    inversion IH as [|? ? Hv Hvs]; subst.
    set (enc := iterencode indent (S level)) in *.
    set (sep := item_separator indent ++ newline_indent indent (S level)) in *.
    set (W1 := pad_all p (newline_indent indent (S level))).
    set (W0 := pad_all p (newline_indent indent level)).
    match goal with
    | |- value_text _ ?t =>
        replace t
          with (91%N :: (W1 ++ pad_all p (enc v))
                  ++ pad_all p (iterencode_items enc sep false vs)
                  ++ W0 ++ [93%N])
          by (cbn [iterencode_items app]; rewrite !pad_all_app;
              rewrite <- !app_assoc; reflexivity)
    end.
    apply VT_arr.
    apply elems_text_items with (wsep := wsep); try assumption.
    + apply padded_newline_indent.
    + eapply Forall_impl; [|exact Hvs]. intros a Ha. apply Ha.
    + apply value_text_ws_run; [apply padded_newline_indent | apply Hv].
  - destruct dct as [|[k v] dct]; [exact (@VT_obj_nil [] eq_refl)|].
    cbn [iterencode pad_json map fst snd].
    destruct (padded_separator (S level)) as (wsep & Hwsep & Hsep).
    inversion IH as [|? ? Hv Hvs]; subst. cbn [snd] in Hv.
    set (enc := iterencode indent (S level)) in *.
    set (sep := item_separator indent ++ newline_indent indent (S level)) in *.
    set (W1 := pad_all p (newline_indent indent (S level))).
    set (W0 := pad_all p (newline_indent indent level)).
    match goal with
    | |- value_text _ ?t =>
        replace t
          with (123%N :: W1
                  ++ pad_all p (py_encode_basestring k ++ key_separator
                                  ++ enc v)
                  ++ pad_all p (iterencode_pairs enc sep false dct)
                  ++ W0 ++ [125%N])
          by (cbn [iterencode_pairs app]; rewrite !pad_all_app;
              rewrite <- !app_assoc; reflexivity)
    end.
    apply VT_obj.
    apply members_text_pairs with (wsep := wsep); try assumption.
    + apply padded_newline_indent.
    + eapply Forall_impl; [|exact Hvs]. intros a Ha. apply Ha.
    + apply padded_newline_indent.
    + apply Hv.
Qed.

End Encoder.

(** ** The characters of an encoded value *)

Lemma escape_char_text_char indent (c : char) :
  Forall (text_char indent) (escape_char c).
Proof.
  destruct (needs_escape c) eqn:Hc.
  - eapply Forall_impl; [|apply escape_char_printable; exact Hc].
    intros d Hd. cbn beta in Hd. left. lia.
  - rewrite escape_char_raw by assumption. constructor; [|constructor].
    left. unfold needs_escape in Hc. char_cases.
Qed.

Lemma py_encode_basestring_text_char indent (s : pystr) :
  Forall (text_char indent) (py_encode_basestring s).
Proof.
  unfold py_encode_basestring. constructor; [left; discriminate|].
  apply Forall_app. split.
  - apply Forall_flat_map, Forall_forall. intros c _.
    apply escape_char_text_char.
  - constructor; [left; discriminate | constructor].
Qed.

Lemma newline_indent_text_char indent level :
  Forall (text_char indent) (newline_indent indent level).
Proof.
  unfold newline_indent. destruct indent as [i|]; constructor.
  - right. split; [discriminate | reflexivity].
  - apply Forall_forall. intros c Hc. apply repeat_spec in Hc. subst c.
    left. discriminate.
Qed.

Lemma item_separator_text_char indent :
  Forall (text_char indent) (item_separator indent).
Proof. destruct indent; repeat constructor; discriminate. Qed.

Ltac forall_app :=
  repeat (apply Forall_app; split);
  try apply newline_indent_text_char;
  try apply item_separator_text_char;
  try apply py_encode_basestring_text_char;
  try (repeat constructor; discriminate).

Lemma iterencode_items_text_char indent enc sep first (lst : list json) :
  Forall (text_char indent) sep ->
  Forall (fun v => Forall (text_char indent) (enc v)) lst ->
  Forall (text_char indent) (iterencode_items enc sep first lst).
Proof.
  intros Hsep H. revert first.
  induction H as [|v lst Hv _ IH]; intros first; cbn [iterencode_items].
  - constructor.
  - forall_app; [destruct first; [constructor | assumption] | assumption
                | apply IH].
Qed.

Lemma iterencode_pairs_text_char indent enc sep first
    (dct : list (pystr * json)) :
  Forall (text_char indent) sep ->
  Forall (fun kv => Forall (text_char indent) (enc (snd kv))) dct ->
  Forall (text_char indent) (iterencode_pairs enc sep first dct).
Proof.
  intros Hsep H. revert first.
  induction H as [|[k v] dct Hv _ IH]; intros first; cbn [iterencode_pairs].
  - constructor.
  - forall_app; [destruct first; [constructor | assumption] | assumption
                | apply IH].
Qed.

Lemma iterencode_text_char indent (v : json) :
  forall level, Forall (text_char indent) (iterencode indent level v).
Proof.
  induction v as [ | b | z | s | lst IH | dct IH] using json_ind;
    intros level.
  - repeat constructor; discriminate.
  - destruct b; repeat constructor; discriminate.
  - eapply Forall_impl; [|apply int_repr_chars].
    intros c Hc. cbn beta in Hc. left. lia.
  - apply py_encode_basestring_text_char.
  - destruct lst as [|v vs]; [repeat constructor; discriminate|].
    cbn [iterencode].
    match goal with
    | |- context [iterencode_items ?e ?s ?f ?l] =>
        assert (Hitems : Forall (text_char indent) (iterencode_items e s f l));
        [ | generalize dependent (iterencode_items e s f l);
            intros items Hitems; forall_app; exact Hitems ]
    end.
    apply iterencode_items_text_char; [forall_app|].
    eapply Forall_impl; [|exact IH]. intros a Ha. apply Ha.
  - destruct dct as [|kv dct]; [repeat constructor; discriminate|].
    cbn [iterencode].
    match goal with
    | |- context [iterencode_pairs ?e ?s ?f ?l] =>
        assert (Hitems : Forall (text_char indent) (iterencode_pairs e s f l));
        [ | generalize dependent (iterencode_pairs e s f l);
            intros items Hitems; forall_app; exact Hitems ]
    end.
    apply iterencode_pairs_text_char; [forall_app|].
    eapply Forall_impl; [|exact IH]. intros a Ha. apply Ha.
Qed.

(** ** The lines of an encoded record *)

Lemma splitlines_padded p (a : pystr) (x : char) :
  ~ In CR a -> is_linebreak x = false ->
  forall cur,
    flat_map (fun line => p ++ line) (splitlines_from cur (a ++ [x]))
    = p ++ cur ++ pad_all p (a ++ [x]).
Proof.
  intros Ha Hx. rewrite pad_all_app.
  replace (pad_all p [x]) with [x]
    by (unfold pad_all; cbn [flat_map]; rewrite Hx; reflexivity).
  assert (Hxcr : (x =? CR)%N = false).
  { destruct (N.eqb_spec x CR) as [->|]; [discriminate Hx | reflexivity]. }
  induction a as [|c a IH]; intros cur; cbn [app splitlines_from].
  - rewrite Hxcr, Hx. cbn [splitlines_from].
    destruct (cur ++ [x]) eqn:E; [destruct cur; discriminate|].
    cbn [flat_map]. rewrite app_nil_r, <- E. reflexivity.
  - assert (Hc : (c =? CR)%N = false).
    { destruct (N.eqb_spec c CR) as [->|]; [|reflexivity].
      exfalso. apply Ha. left. reflexivity. }
    assert (Ha' : ~ In CR a) by (intros H; apply Ha; right; exact H).
    rewrite Hc. unfold pad_all. cbn [flat_map]. fold (pad_all p a).
    destruct (is_linebreak c).
    + cbn [flat_map]. rewrite (IH Ha' []).
      rewrite <- !app_assoc. reflexivity.
    + rewrite (IH Ha' (cur ++ [c])). rewrite <- !app_assoc. reflexivity.
Qed.

Lemma iterencode_object_last indent level (comment : record) :
  exists a, iterencode indent level (JObj comment) = a ++ [125%N].
Proof.
  destruct comment as [|kv dct].
  - exists [123%N]. reflexivity.
  - cbn [iterencode]. eexists. rewrite !app_assoc. reflexivity.
Qed.

Lemma padding_of_spaces indent : exists n, padding_of indent = repeat SPACE n.
Proof.
  destruct indent as [i|]; [|exists 0; reflexivity].
  unfold padding_of. destruct (i =? 0)%Z; [exists 0; reflexivity|].
  eexists. reflexivity.
Qed.

(** [to_json] is the encoding with the padding in front and after every
    line boundary. *)
Lemma to_json_padded (comment : record) (indent : option Z) :
  to_json comment indent
  = padding_of indent
    ++ pad_all (padding_of indent) (iterencode indent 0 (JObj comment)).
Proof.
  unfold to_json, json_dumps. destruct indent as [i|].
  - destruct (iterencode_object_last (Some i) 0 comment) as (a & E).
    pose proof (iterencode_text_char (Some i) (JObj comment) 0) as Hchars.
    rewrite E in *. unfold splitlines_keepends.
    rewrite splitlines_padded; [reflexivity | | reflexivity].
    intros Hin. apply Forall_app in Hchars as [Hchars _].
    rewrite Forall_forall in Hchars.
    destruct (Hchars CR Hin) as [H | [_ H]]; [|discriminate H].
    unfold CR in H. lia.
  - cbn [padding_of app]. rewrite pad_all_nil. reflexivity.
Qed.

Lemma to_json_value_text (comment : record) (indent : option Z) :
  value_text (JObj (pad_record (padding_of indent) comment))
    (to_json comment indent).
Proof.
  rewrite to_json_padded.
  destruct (padding_of_spaces indent) as (n & ->).
  apply value_text_ws_run; [apply all_ws_spaces|].
  apply (iterencode_value_text n indent (JObj comment) 0).
Qed.

(** Decoding an encoded record gives the record back, with the padding in
    its strings. *)
Lemma json_loads_to_json (comment : record) (indent : option Z) :
  json_loads (to_json comment indent)
  = Some (JObj (pad_record (padding_of indent) comment)).
Proof. apply json_loads_value_text, to_json_value_text. Qed.

Lemma pad_json_nil (v : json) : pad_json [] v = v.
Proof.
  induction v as [ | b | z | s | lst IH | dct IH] using json_ind;
    cbn [pad_json]; try reflexivity.
  - rewrite pad_string_nil. reflexivity.
  - f_equal. induction IH as [|v lst Hv _ IHl]; [reflexivity|].
    cbn [map]. rewrite Hv, IHl. reflexivity.
  - f_equal. induction IH as [|[k v] dct Hv _ IHd]; [reflexivity|].
    cbn [map fst snd] in *. rewrite Hv, IHd, pad_string_nil. reflexivity.
Qed.

Lemma pad_record_nil (comment : record) : pad_record [] comment = comment.
Proof.
  pose proof (pad_json_nil (JObj comment)) as H. cbn [pad_json] in H.
  injection H as H. exact H.
Qed.

(** In compact style the decoder is a left inverse of [to_json]. *)
Lemma json_loads_compact (comment : record) :
  json_loads (to_json comment None) = Some (JObj comment).
Proof.
  rewrite json_loads_to_json. cbn [padding_of].
  rewrite pad_record_nil. reflexivity.
Qed.

Lemma pad_record_keys p (comment : record) :
  map fst (pad_record p comment) = map (pad_string p) (map fst comment).
Proof. unfold pad_record. rewrite !map_map. reflexivity. Qed.

(** ** Counting and filtering the characters of an encoding *)

Section Filter.

Variable f : char -> bool.
Hypothesis f_printable : forall d, (33 <= d < 127)%N -> f d = false.
Hypothesis f_escaped : forall c, needs_escape c = true -> f c = false.

Lemma filter_escape_char (c : char) :
  filter f (escape_char c) = filter f [c].
Proof.
  destruct (needs_escape c) eqn:Hc.
  - cbn [filter]. rewrite (f_escaped c Hc).
    pose proof (escape_char_printable c Hc) as H.
    induction H as [|d l Hd _ IH]; [reflexivity|].
    cbn [filter]. rewrite (f_printable Hd). exact IH.
  - rewrite escape_char_raw by assumption. reflexivity.
Qed.

Lemma filter_py_encode_basestring (s : pystr) :
  filter f (py_encode_basestring s) = filter f s.
Proof.
  unfold py_encode_basestring. cbn [filter].
  rewrite (f_printable (d := QUOTE)) by (unfold QUOTE; lia).
  rewrite filter_app. cbn [filter].
  rewrite (f_printable (d := QUOTE)) by (unfold QUOTE; lia).
  rewrite app_nil_r.
  induction s as [|c s IH]; [reflexivity|].
  cbn [flat_map]. rewrite filter_app, filter_escape_char, IH.
  change (c :: s) with ([c] ++ s). rewrite filter_app. reflexivity.
Qed.

Lemma filter_int_repr (z : Z) : filter f (int_repr z) = [].
Proof.
  pose proof (int_repr_chars z) as H.
  induction H as [|d l Hd _ IH]; [reflexivity|].
  cbn [filter]. rewrite f_printable by lia. exact IH.
Qed.

Lemma filter_lit_printable (l : pystr) :
  Forall (fun d => (33 <= d < 127)%N) l -> filter f l = [].
Proof.
  induction 1 as [|d l Hd _ IH]; [reflexivity|].
  cbn [filter]. rewrite (f_printable Hd). exact IH.
Qed.

End Filter.

Lemma non_ascii_printable d : (33 <= d < 127)%N -> non_ascii d = false.
Proof. unfold non_ascii. intros H. char_cases. Qed.

Lemma non_ascii_escaped c : needs_escape c = true -> non_ascii c = false.
Proof. unfold needs_escape, non_ascii, QUOTE, BACKSLASH. intros H. char_cases. Qed.

Lemma is_space_printable d : (33 <= d < 127)%N -> (SPACE =? d)%N = false.
Proof. unfold SPACE. intros H. char_cases. Qed.

Lemma is_space_escaped c : needs_escape c = true -> (SPACE =? c)%N = false.
Proof. unfold needs_escape, SPACE, QUOTE, BACKSLASH. intros H. char_cases. Qed.

Lemma iterencode_items_cons enc sep first v (l : list json) :
  iterencode_items enc sep first (v :: l)
  = (if first then [] else sep) ++ enc v ++ iterencode_items enc sep false l.
Proof. reflexivity. Qed.

Lemma iterencode_pairs_cons enc sep first k v (l : list (pystr * json)) :
  iterencode_pairs enc sep first ((k, v) :: l)
  = (if first then [] else sep) ++ py_encode_basestring k ++ key_separator
    ++ enc v ++ iterencode_pairs enc sep false l.
Proof. reflexivity. Qed.

(** *** Characters outside ASCII *)

Lemma non_ascii_iterencode (v : json) :
  forall level,
    filter non_ascii (iterencode None level v) = filter non_ascii (json_chars v).
Proof.
  induction v as [ | b | z | s | lst IH | dct IH] using json_ind;
    intros level.
  - reflexivity.
  - destruct b; reflexivity.
  - apply filter_int_repr, non_ascii_printable.
  - apply filter_py_encode_basestring;
      [apply non_ascii_printable | apply non_ascii_escaped].
  - destruct lst as [|v vs]; [reflexivity|].
    cbn [iterencode newline_indent item_separator app json_chars].
    rewrite app_nil_r, !filter_app.
    change (filter non_ascii (lit "[")) with (@nil char).
    change (filter non_ascii (lit "]")) with (@nil char).
    rewrite app_nil_r. cbn [app].
    enough (H : forall first (l : list json),
      Forall (fun v => forall level,
                filter non_ascii (iterencode None level v)
                = filter non_ascii (json_chars v)) l ->
      filter non_ascii
        (iterencode_items (iterencode None (S level)) (lit ", ") first l)
      = filter non_ascii (flat_map json_chars l)) by (apply H, IH).
    clear. intros first l IH. revert first.
    induction IH as [|a l Ha _ IHl]; intros first; [reflexivity|].
    rewrite iterencode_items_cons. cbn [flat_map].
    rewrite !filter_app, Ha, IHl.
    destruct first; reflexivity.
  - destruct dct as [|kv dct]; [reflexivity|].
    cbn [iterencode newline_indent item_separator app json_chars].
    rewrite app_nil_r, !filter_app.
    change (filter non_ascii (lit "{")) with (@nil char).
    change (filter non_ascii (lit "}")) with (@nil char).
    rewrite app_nil_r. cbn [app].
    enough (H : forall first (l : list (pystr * json)),
      Forall (fun kv => forall level,
                filter non_ascii (iterencode None level (snd kv))
                = filter non_ascii (json_chars (snd kv))) l ->
      filter non_ascii
        (iterencode_pairs (iterencode None (S level)) (lit ", ") first l)
      = filter non_ascii
          (flat_map (fun kv => fst kv ++ json_chars (snd kv)) l))
      by (apply H, IH).
    clear. intros first l IH. revert first.
    induction IH as [|[k a] l Ha _ IHl]; intros first; [reflexivity|].
    rewrite iterencode_pairs_cons. cbn [flat_map fst snd] in *.
    rewrite !filter_app, Ha, IHl.
    rewrite (filter_py_encode_basestring non_ascii
               non_ascii_printable non_ascii_escaped).
    change (filter non_ascii key_separator) with (@nil char).
    rewrite <- app_assoc.
    destruct first; reflexivity.
Qed.

(** *** Spaces *)

Lemma count_char_app c (a b : pystr) :
  count_char c (a ++ b) = count_char c a + count_char c b.
Proof. unfold count_char. rewrite filter_app, length_app. reflexivity. Qed.

Lemma count_space_basestring (s : pystr) :
  count_char SPACE (py_encode_basestring s) = count_char SPACE s.
Proof.
  unfold count_char.
  rewrite (filter_py_encode_basestring (N.eqb SPACE)
             is_space_printable is_space_escaped).
  reflexivity.
Qed.

Lemma count_space_iterencode (v : json) :
  forall level,
    count_char SPACE (iterencode None level v)
    = count_char SPACE (json_chars v) + separators v.
Proof.
  induction v as [ | b | z | s | lst IH | dct IH] using json_ind;
    intros level.
  - reflexivity.
  - destruct b; reflexivity.
  - unfold count_char. cbn [iterencode].
    rewrite (filter_int_repr (N.eqb SPACE) is_space_printable). reflexivity.
  - cbn [iterencode json_chars separators].
    rewrite count_space_basestring. lia.
  - destruct lst as [|v vs]; [reflexivity|].
    cbn [iterencode newline_indent item_separator app].
    rewrite app_nil_r, !count_char_app.
    change (count_char SPACE (lit "[")) with 0.
    change (count_char SPACE (lit "]")) with 0.
    assert (H : forall first,
      count_char SPACE
        (iterencode_items (iterencode None (S level)) (lit ", ") first (v :: vs))
      = count_char SPACE (flat_map json_chars (v :: vs))
        + list_sum (map separators (v :: vs))
        + (if first then pred (length (v :: vs)) else length (v :: vs))).
    { revert IH. generalize (v :: vs). clear v vs. intros l IH.
      induction IH as [|a l Ha _ IHl]; intros first; [destruct first; reflexivity|].
      rewrite iterencode_items_cons.
      cbn [flat_map map length pred].
      change (list_sum (?x :: ?t)) with (x + list_sum t).
      rewrite !count_char_app, Ha, (IHl false).
      destruct first; cbn [length pred];
        change (count_char SPACE (lit ", ")) with 1;
        change (count_char SPACE []) with 0; lia. }
    rewrite (H true). cbn [json_chars separators length pred].
    lia.
  - destruct dct as [|kv dct]; [reflexivity|].
    cbn [iterencode newline_indent item_separator app].
    rewrite app_nil_r, !count_char_app.
    change (count_char SPACE (lit "{")) with 0.
    change (count_char SPACE (lit "}")) with 0.
    set (dct' := kv :: dct) in *.
    assert (H : forall first,
      count_char SPACE
        (iterencode_pairs (iterencode None (S level)) (lit ", ") first dct')
      = count_char SPACE
          (flat_map (fun kv => fst kv ++ json_chars (snd kv)) dct')
        + list_sum (map (fun kv => separators (snd kv)) dct')
        + length dct'
        + (if first then pred (length dct') else length dct')).
    { clearbody dct'. clear kv dct.
      induction IH as [|[k a] l Ha _ IHl]; intros first; [destruct first; reflexivity|].
      rewrite iterencode_pairs_cons.
      cbn [flat_map map length pred fst snd] in *.
      change (list_sum (?x :: ?t)) with (x + list_sum t).
      rewrite !count_char_app, Ha, (IHl false), count_space_basestring.
      destruct first; cbn [length pred];
        change (count_char SPACE (lit ", ")) with 1;
        change (count_char SPACE key_separator) with 1;
        change (count_char SPACE []) with 0; lia. }
    rewrite (H true). cbn [json_chars separators length pred].
    lia.
Qed.

(** *** The compact format *)

Lemma string_text_basestring (s : pystr) :
  string_text s (flat_map escape_char s ++ [QUOTE]).
Proof.
  pose proof (string_text_padded 0 s) as H. cbn [repeat] in H.
  rewrite pad_string_nil, pad_all_nil in H. exact H.
Qed.

Lemma compact_items_iterencode enc (lst : list json) :
  Forall (fun v => compact_text v (enc v)) lst ->
  forall v,
    compact_text v (enc v) ->
    compact_items (v :: lst)
      (enc v ++ iterencode_items enc (lit ", ") false lst).
Proof.
  induction 1 as [|v' lst Hv' _ IH]; intros v Hv.
  - cbn [iterencode_items]. rewrite app_nil_r. apply CI_last, Hv.
  - rewrite iterencode_items_cons.
    apply CI_cons; [exact Hv | apply IH, Hv'].
Qed.

Lemma compact_members_iterencode enc (dct : list (pystr * json)) :
  Forall (fun kv => compact_text (snd kv) (enc (snd kv))) dct ->
  forall k v,
    compact_text v (enc v) ->
    compact_members ((k, v) :: dct)
      (py_encode_basestring k ++ key_separator ++ enc v
         ++ iterencode_pairs enc (lit ", ") false dct).
Proof.
  induction 1 as [|[k' v'] dct Hv' _ IH]; intros k v Hv;
    unfold py_encode_basestring at 1; rewrite <- app_comm_cons;
    unfold key_separator.
  - cbn [iterencode_pairs]. rewrite app_nil_r.
    apply CM_last; [apply string_text_basestring | exact Hv].
  - rewrite iterencode_pairs_cons.
    apply CM_cons; [apply string_text_basestring | exact Hv | apply IH, Hv'].
Qed.

(** The compact encoding is a text of the compact format. *)
Lemma iterencode_compact_text (v : json) :
  forall level, compact_text v (iterencode None level v).
Proof.
  induction v as [ | b | z | s | lst IH | dct IH] using json_ind;
    intros level.
  - exact CT_null.
  - destruct b; [exact CT_true | exact CT_false].
  - apply CT_int.
  - apply CT_str, string_text_basestring.
  - destruct lst as [|v vs]; [exact CT_arr_nil|].
    cbn [iterencode newline_indent item_separator app].
    rewrite app_nil_r, iterencode_items_cons. cbn [app].
    inversion IH as [|? ? Hv Hvs]; subst.
    apply (@CT_arr v vs), compact_items_iterencode; [|apply Hv].
    eapply Forall_impl; [|exact Hvs]. intros a Ha. apply Ha.
  - destruct dct as [|[k v] dct]; [exact CT_obj_nil|].
    cbn [iterencode newline_indent item_separator app].
    rewrite app_nil_r, iterencode_pairs_cons. cbn [app].
    inversion IH as [|? ? Hv Hvs]; subst. cbn [snd] in Hv.
    apply (@CT_obj (k, v) dct), compact_members_iterencode; [|apply Hv].
    eapply Forall_impl; [|exact Hvs]. intros a Ha. apply Ha.
Qed.

(** ** Compact style *)

(** C7 as stated fails on a record of two members: its compact encoding
    holds three spaces, and the record holds none. *)
Lemma compact_inserts_spaces :
  count_char SPACE (to_json comment_ab None)
  <> count_char SPACE (json_chars (JObj comment_ab)).
Proof. vm_compute. discriminate. Qed.

(** C7, as amended: the compact encoding of a record is one line of JSON
    text (no character below U+0020) that decodes to the record; it is the
    text of the compact format, in which the only white space between the
    tokens is one space after each comma and after each colon that
    separates, so that it holds one more space per separator than the
    strings of the record; the characters outside ASCII are those of the
    record, in order and unescaped. *)
Theorem compact_encoding (comment : record) :
  Forall (fun c => (32 <= c)%N) (to_json comment None)
  /\ json_loads (to_json comment None) = Some (JObj comment)
  /\ compact_text (JObj comment) (to_json comment None)
  /\ count_char SPACE (to_json comment None)
     = count_char SPACE (json_chars (JObj comment))
       + separators (JObj comment)
  /\ filter non_ascii (to_json comment None)
     = filter non_ascii (json_chars (JObj comment)).
Proof.
  repeat split.
  - eapply Forall_impl; [|apply (iterencode_text_char None (JObj comment) 0)].
    intros c [H | [H _]]; [exact H | contradiction].
  - apply json_loads_compact.
  - apply iterencode_compact_text.
  - apply count_space_iterencode.
  - apply non_ascii_iterencode.
Qed.

(** ** Key order *)

Lemma pad_string_plain_keys p (keys : list pystr) :
  forallb plain_string keys = true -> map (pad_string p) keys = keys.
Proof.
  induction keys as [|k keys IH]; [reflexivity|].
  cbn [forallb map]. intros H. apply andb_prop in H as [Hk Hks].
  rewrite pad_string_plain, IH by assumption. reflexivity.
Qed.

(** X19: in both styles the text of a record decodes to an object whose
    keys are those of the record with the padding that [to_json] puts
    after a line boundary, one for one and in the same order; in compact
    style, and for keys without U+0085, U+2028 and U+2029, they are the
    keys of the record themselves. *)
Theorem to_json_keeps_key_order (comment : record) (indent : option Z) :
  option_map object_keys (json_loads (to_json comment indent))
  = Some (map (pad_string (padding_of indent)) (map fst comment))
  /\ (indent = None \/ forallb plain_string (map fst comment) = true ->
      option_map object_keys (json_loads (to_json comment indent))
      = Some (map fst comment)).
Proof.
  rewrite json_loads_to_json. cbn [option_map object_keys].
  rewrite pad_record_keys. split; [reflexivity|].
  intros [-> | Hplain].
  - cbn [padding_of]. f_equal.
    induction (map fst comment) as [|k keys IH]; [reflexivity|].
    cbn [map]. rewrite pad_string_nil, IH. reflexivity.
  - rewrite pad_string_plain_keys by assumption. reflexivity.
Qed.

Lemma to_json_keeps_key_order_witness :
  (forallb plain_string (map fst comment_ba) = true
   /\ option_map object_keys (json_loads (to_json comment_ba (Some 4%Z)))
      = Some [lit "b"; lit "a"])
  /\ option_map object_keys (json_loads (to_json comment_ba None))
     = Some [lit "b"; lit "a"].
Proof.
  split; [split; [reflexivity|] | ].
  - apply (proj2 (to_json_keeps_key_order comment_ba (Some 4%Z))).
    right. reflexivity.
  - apply (proj2 (to_json_keeps_key_order comment_ba None)).
    left. reflexivity.
Defined.

(** C8: with the indent 4, the record whose keys are U+2028 and U+2028
    followed by eight spaces is written with the padding inside both keys.
    The first key of the text is the second key of the record, and the
    first key of the record is no key of the text. *)
Theorem pretty_style_pads_keys :
  map fst comment_ls_keys = [[LINE_SEPARATOR]; LINE_SEPARATOR :: spaces 8]
  /\ to_json comment_ls_keys (Some 4%Z)
     = spaces 8 ++ lit "{" ++ [LF]
       ++ spaces 12 ++ [QUOTE; LINE_SEPARATOR] ++ spaces 8 ++ [QUOTE]
       ++ lit ": 1," ++ [LF]
       ++ spaces 12 ++ [QUOTE; LINE_SEPARATOR] ++ spaces 8 ++ spaces 8
       ++ [QUOTE] ++ lit ": 2" ++ [LF]
       ++ spaces 8 ++ lit "}"
  /\ option_map object_keys (json_loads (to_json comment_ls_keys (Some 4%Z)))
     = Some [LINE_SEPARATOR :: spaces 8; LINE_SEPARATOR :: spaces 16].
Proof. vm_compute. repeat split. Qed.

(** ** ND-JSON mode *)

Lemma file_text_body pretty comment pulled next_comment count :
  file_text (body pretty comment pulled next_comment count)
  = to_json comment (if pretty then Some 4%Z else None)
    ++ (if pretty && is_not_None next_comment then lit "," else []).
Proof.
  unfold body.
  destruct pulled, (pretty && is_not_None next_comment);
    cbn [app file_text]; rewrite ?app_nil_r; reflexivity.
Qed.

Lemma to_json_compact_chars (comment : record) :
  Forall (fun c => (32 <= c)%N) (to_json comment None).
Proof.
  eapply Forall_impl; [|apply (iterencode_text_char None (JObj comment) 0)].
  intros c [H | [H _]]; [exact H | contradiction].
Qed.

Lemma ndjson_while_chars limit (generator : list record) :
  forall comment count,
    Forall (fun c => (32 <= c)%N)
      (file_text (fst (while_comment false limit generator comment count))).
Proof.
  induction generator as [|c g IH]; intros comment count;
    rewrite while_comment_eq;
    destruct (truthy comment); try constructor;
    destruct (limit_reached limit count); cbn [fst];
    rewrite ?file_text_app, ?file_text_body; cbn [andb app];
    rewrite ?app_nil_r; try apply to_json_compact_chars.
  apply Forall_app. split; [apply to_json_compact_chars | apply IH].
Qed.

Lemma count_char_low (c : char) (s : pystr) :
  (c < 32)%N -> Forall (fun d => (32 <= d)%N) s -> count_char c s = 0.
Proof.
  intros Hc. unfold count_char.
  induction 1 as [|d s Hd _ IH]; [reflexivity|].
  cbn [filter]. destruct (N.eqb_spec c d); [lia | exact IH].
Qed.

(** C2: the text written in ND-JSON mode never holds a newline, whatever
    the records and the limit; two records are written one against the
    other, as one line that is not a JSON text. *)
Theorem ndjson_output_has_no_newline :
  (forall limit output generator,
      count_char LF
        (file_text (fst (write_comments false limit output generator))) = 0)
  /\ file_text (fst (write_comments false None out_path
                       [comment_a; comment_b]))
     = lit "{" ++ quoted "a" ++ lit ": 1}{" ++ quoted "b" ++ lit ": 2}"
  /\ json_loads (file_text (fst (write_comments false None out_path
                                   [comment_a; comment_b]))) = None.
Proof.
  split; [|split; reflexivity].
  intros limit output generator. apply count_char_low; [reflexivity|].
  rewrite write_comments_eq. cbn [app file_text].
  destruct generator as [|c g]; [constructor|].
  rewrite file_text_app. cbn [file_text]. rewrite app_nil_r.
  apply ndjson_while_chars.
Qed.

(** ** Array mode *)

(** C1: a record whose text holds U+2028 comes back from the Array-mode
    document with eight spaces after that character; and a record followed
    by an empty record leaves a document that ends its array on a comma,
    which is not a JSON text. *)
Theorem array_mode_document_differs :
  emitted (fst (write_comments true None out_path [comment_ls])) = 1
  /\ json_loads
       (file_text (fst (write_comments true None out_path [comment_ls])))
     = Some (document
               [[(lit "text",
                  JStr (lit "x" ++ [LINE_SEPARATOR] ++ spaces 8 ++ lit "y"))]])
  /\ json_loads
       (file_text (fst (write_comments true None out_path
                          [comment_a; empty_comment])))
     = None.
Proof. vm_compute. repeat split. Qed.

(** *** What Array mode does write

    With non-empty records only, the Array-mode text is a JSON text of the
    document of the records written, each with the padding in its strings;
    with records whose strings hold none of U+0085, U+2028 and U+2029 it
    is a JSON text of the document of the records themselves. *)

Lemma pad_json_plain p (v : json) :
  plain_json v = true -> pad_json p v = v.
Proof.
  induction v as [ | b | z | s | lst IH | dct IH] using json_ind;
    cbn [pad_json plain_json]; intros H; try reflexivity.
  - rewrite pad_string_plain by assumption. reflexivity.
  - f_equal. induction IH as [|v lst Hv _ IHl]; [reflexivity|].
    cbn [forallb map] in *. apply andb_prop in H as [H1 H2].
    rewrite Hv, IHl by assumption. reflexivity.
  - f_equal. induction IH as [|[k v] dct Hv _ IHd]; [reflexivity|].
    cbn [forallb map fst snd] in *.
    apply andb_prop in H as [H1 H2]. apply andb_prop in H1 as [Hk Hv'].
    rewrite Hv, IHd, pad_string_plain by assumption. reflexivity.
Qed.

Lemma pad_record_plain p (comment : record) :
  plain_record comment = true -> pad_record p comment = comment.
Proof.
  intros H. pose proof (pad_json_plain p (JObj comment) H) as E.
  cbn [pad_json] in E. injection E as E. exact E.
Qed.

Lemma emitted_while_positive pretty limit generator comment count :
  truthy comment = true ->
  exists k,
    emitted (fst (while_comment pretty limit generator comment count)) = S k.
Proof.
  intros Ht. rewrite while_comment_eq, Ht.
  destruct (limit_reached limit count); [|destruct generator]; cbn [fst];
    rewrite ?emitted_app, emitted_body; eexists; reflexivity.
Qed.

Lemma array_while_elems limit (wend : pystr) (generator : list record) :
  all_ws wend ->
  forall comment count,
    forallb truthy (comment :: generator) = true ->
    elems_text
      (map (fun c => JObj (pad_record array_padding c))
         (comment
            :: firstn
                 (pred (emitted (fst (while_comment true limit generator
                                        comment count))))
                 generator))
      (file_text (fst (while_comment true limit generator comment count))
         ++ wend ++ [93%N]).
Proof.
  intros Hwend.
  induction generator as [|c g IH]; intros comment count Ht;
    cbn [forallb] in Ht; apply andb_prop in Ht as [Hcomment Hrest];
    rewrite while_comment_eq, Hcomment;
    destruct (limit_reached limit count); cbn [fst];
    rewrite ?emitted_app, ?emitted_body, ?file_text_app, ?file_text_body;
    cbn [andb is_not_None Nat.add pred firstn map];
    rewrite ?app_nil_r;
    try (apply ET_last; [apply to_json_value_text | exact Hwend]).
  destruct (emitted_while_positive true limit g c (count + 1)%Z) as (k & Hk).
  { cbn [forallb] in Hrest. apply andb_prop in Hrest as [H _]. exact H. }
  specialize (IH c (count + 1)%Z Hrest). rewrite Hk in *.
  cbn [pred firstn map] in *.
  rewrite <- !app_assoc. cbn [app].
  apply (@ET_cons _ (to_json comment (Some 4%Z)) []);
    [apply to_json_value_text | reflexivity | exact IH].
Qed.

Lemma elems_text_ws_run (w : pystr) vs t :
  all_ws w -> elems_text vs t -> elems_text vs (w ++ t).
Proof.
  intros Hw H.
  destruct H; rewrite app_assoc; constructor; try assumption;
    apply value_text_ws_run; assumption.
Qed.

Lemma array_file_text limit output (generator : list record) :
  file_text (fst (write_comments true limit output generator))
  = lit "{" ++ [LF] ++ spaces 4 ++ quoted "comments" ++ lit ": [" ++ [LF]
    ++ match generator with
       | [] => []
       | c :: g => file_text (fst (while_comment true limit g c 1%Z))
       end
    ++ [LF] ++ spaces 4 ++ lit "]" ++ [LF] ++ lit "}".
Proof.
  rewrite write_comments_eq.
  rewrite !file_text_app. cbn [file_text]. rewrite !app_nil_r.
  destruct generator; cbn [file_text]; rewrite <- ?app_assoc; reflexivity.
Qed.

Lemma array_mode_value_text limit output (generator : list record) :
  forallb truthy generator = true ->
  value_text
    (document
       (map (pad_record array_padding)
          (firstn (emitted (fst (write_comments true limit output generator)))
             generator)))
    (file_text (fst (write_comments true limit output generator))).
Proof.
  intros Ht. rewrite emitted_write_comments, array_file_text.
  unfold document.
  set (wend := [LF] ++ spaces 4).
  assert (Hwend : all_ws wend) by reflexivity.
  set (body := match generator with
               | [] => []
               | c :: g => file_text (fst (while_comment true limit g c 1%Z))
               end).
  match goal with
  | |- value_text _ ?t =>
      replace t
        with (123%N :: ([LF] ++ spaces 4) ++ QUOTE :: (lit "comments" ++ [QUOTE])
                ++ [] ++ 58%N
                :: (SPACE :: 91%N :: LF :: body ++ wend ++ [93%N])
                ++ [LF] ++ [125%N])
        by (cbn [app]; rewrite <- !app_assoc; reflexivity)
  end.
  apply VT_obj, MT_last; try reflexivity.
  { repeat (apply ST_raw; [reflexivity|]). apply ST_end. }
  apply VT_ws; [reflexivity|]. subst body.
  destruct generator as [|c g].
  - cbn [firstn map app]. apply (@VT_arr_nil (LF :: wend)).
    reflexivity.
  - destruct (emitted_while_positive true limit g c 1%Z) as (k & Hk).
    { cbn [forallb] in Ht. apply andb_prop in Ht as [H _]. exact H. }
    pose proof (@array_while_elems limit wend g Hwend c 1%Z Ht) as H.
    rewrite Hk in *. cbn [pred firstn map] in *. rewrite map_map.
    apply VT_arr, (@elems_text_ws_run [LF]); [reflexivity | exact H].
Qed.

(** The Array-mode text of non-empty records decodes to the document of
    the records written, with the padding in their strings. *)
Lemma array_mode_loads limit output (generator : list record) :
  forallb truthy generator = true ->
  json_loads (file_text (fst (write_comments true limit output generator)))
  = Some (document
            (map (pad_record array_padding)
               (firstn
                  (emitted (fst (write_comments true limit output generator)))
                  generator))).
Proof. intros Ht. apply json_loads_value_text, array_mode_value_text, Ht. Qed.

(** X15: with non-empty records whose strings hold no U+0085, U+2028 or
    U+2029, the Array-mode text decodes to the document of the records
    written, whatever the limit. *)
Lemma array_mode_loads_plain limit output (generator : list record) :
  forallb truthy generator = true ->
  forallb plain_record generator = true ->
  json_loads (file_text (fst (write_comments true limit output generator)))
  = Some (document
            (firstn
               (emitted (fst (write_comments true limit output generator)))
               generator)).
Proof.
  intros Ht Hp. rewrite array_mode_loads by assumption. do 2 f_equal.
  set (k := emitted _). clearbody k. revert k.
  induction generator as [|c g IH]; intros [|k]; try reflexivity.
  cbn [forallb firstn map] in *.
  apply andb_prop in Ht as [_ Ht]. apply andb_prop in Hp as [Hc Hp].
  rewrite pad_record_plain, IH by assumption. reflexivity.
Qed.

(** * Further properties of [to_json] *)

Lemma padding_of_nonpositive (i : Z) :
  (i <= 0)%Z -> padding_of (Some i) = [].
Proof.
  intros Hi. unfold padding_of, spaces.
  destruct (Z.eqb_spec i 0); [reflexivity|].
  replace (Z.to_nat (2 * i)) with 0 by lia. reflexivity.
Qed.

Lemma pad_all_chars (P : char -> Prop) p (s : pystr) :
  Forall P p -> Forall P s -> Forall P (pad_all p s).
Proof.
  intros Hp. induction 1 as [|c s Hc _ IH]; [constructor|].
  unfold pad_all. cbn [flat_map]. fold (pad_all p s).
  constructor; [exact Hc|]. apply Forall_app. split; [|exact IH].
  destruct (is_linebreak c); [exact Hp | constructor].
Qed.

(** X1: the text of a record, in either style and for every indent,
    decodes to the record with the padding after the line boundaries of
    its strings; for a record whose strings hold no U+0085, U+2028 or
    U+2029 it decodes to the record itself. *)
Theorem to_json_round_trip (comment : record) (indent : option Z) :
  json_loads (to_json comment indent)
  = Some (JObj (pad_record (padding_of indent) comment))
  /\ (plain_record comment = true ->
      json_loads (to_json comment indent) = Some (JObj comment)).
Proof.
  split; [apply json_loads_to_json|].
  intros Hplain. rewrite json_loads_to_json, pad_record_plain by assumption.
  reflexivity.
Qed.

Lemma to_json_round_trip_witness :
  plain_record comment_ba = true
  /\ json_loads (to_json comment_ba (Some 4%Z)) = Some (JObj comment_ba).
Proof.
  split; [reflexivity|].
  apply (proj2 (to_json_round_trip comment_ba (Some 4%Z))). reflexivity.
Defined.

(** X2: [to_json] with an indent returns the text of [json.dumps] with
    the padding, [2 * indent] spaces, put at its start and after every
    line boundary of it. *)
Theorem to_json_pads_every_line (comment : record) (i : Z) :
  to_json comment (Some i)
  = padding_of (Some i)
    ++ pad_all (padding_of (Some i)) (json_dumps (JObj comment) (Some i)).
Proof. apply to_json_padded. Qed.

(** X3: with an indent of zero or less there is no padding, and [to_json]
    returns the text of [json.dumps] as it is. *)
Theorem to_json_nonpositive_indent (comment : record) (i : Z) :
  (i <= 0)%Z ->
  to_json comment (Some i) = json_dumps (JObj comment) (Some i).
Proof.
  intros Hi. rewrite to_json_padded, padding_of_nonpositive by assumption.
  cbn [app]. apply pad_all_nil.
Qed.

Lemma to_json_nonpositive_indent_witness :
  (0 <= 0)%Z
  /\ to_json comment_ab (Some 0%Z) = json_dumps (JObj comment_ab) (Some 0%Z).
Proof.
  split; [lia|]. apply (to_json_nonpositive_indent comment_ab (i:=0)). lia.
Defined.

(** X4: the text of a record holds no control character but the newlines
    of the indentation: every character is U+0020 or above, or a line
    feed. *)
Theorem to_json_control_characters (comment : record) (indent : option Z) :
  Forall (fun c => (32 <= c)%N \/ c = LF) (to_json comment indent).
Proof.
  rewrite to_json_padded.
  destruct (padding_of_spaces indent) as (n & ->).
  assert (Hp : Forall (fun c => (32 <= c)%N \/ c = LF) (repeat SPACE n)).
  { apply Forall_forall. intros c Hc. apply repeat_spec in Hc. subst c.
    left. discriminate. }
  apply Forall_app. split; [exact Hp|].
  apply pad_all_chars; [exact Hp|].
  eapply Forall_impl; [|apply (iterencode_text_char indent (JObj comment) 0)].
  intros c [H | [_ H]]; [left | right]; exact H.
Qed.

(** X5: in compact style two records with the same text are the same
    record. *)
Theorem to_json_compact_injective (comment comment' : record) :
  to_json comment None = to_json comment' None -> comment = comment'.
Proof.
  intros H. apply (f_equal json_loads) in H.
  rewrite !json_loads_compact in H. injection H as H. exact H.
Qed.

Lemma to_json_compact_injective_witness :
  to_json comment_ab None = to_json comment_ab None
  /\ comment_ab = comment_ab.
Proof.
  split; [reflexivity|].
  apply (to_json_compact_injective comment_ab comment_ab). reflexivity.
Defined.

(** * Further properties of [main] *)

Lemma stdout_texts_app (a b : list event) :
  stdout_texts (a ++ b) = stdout_texts a ++ stdout_texts b.
Proof.
  induction a as [|e a IH]; [reflexivity|].
  destruct e; cbn [app stdout_texts]; rewrite IH; reflexivity.
Qed.

Lemma stdout_texts_body pretty comment pulled next_comment count :
  stdout_texts (body pretty comment pulled next_comment count)
  = [progress count].
Proof. unfold body. destruct pulled; reflexivity. Qed.

(** ** The running count and the progress line *)

Lemma while_comment_count pretty limit (generator : list record) :
  forall comment count,
    snd (while_comment pretty limit generator comment count)
    = (count
       + Z.of_nat (emitted (fst (while_comment pretty limit generator
                                   comment count))))%Z
    /\ stdout_texts (fst (while_comment pretty limit generator comment count))
       = map (fun k => progress (count + Z.of_nat k)%Z)
           (seq 0 (emitted (fst (while_comment pretty limit generator
                                   comment count)))).
Proof.
  induction generator as [|c g IH]; intros comment count;
    rewrite while_comment_eq;
    destruct (truthy comment); try (split; [cbn; lia | reflexivity]);
    destruct (limit_reached limit count); cbn [fst snd];
    rewrite ?emitted_app, ?stdout_texts_app, ?emitted_body,
      ?stdout_texts_body;
    try (cbn [seq map]; rewrite Z.add_0_r; split; [lia | reflexivity]).
  destruct (IH c (count + 1)%Z) as [Hn Hs]. rewrite Hn, Hs.
  split; [lia|].
  cbn [Nat.add seq map app]. rewrite Z.add_0_r. f_equal.
  rewrite <- seq_shift, map_map. apply map_ext. intros k.
  f_equal. lia.
Qed.

(** X6: when the [with] block is left, [count] is one more than the
    number of records written, and the progress lines written to standard
    output are those of 1, 2, ... up to that number, in order. *)
Theorem count_tracks_emitted pretty limit output (generator : list record) :
  snd (write_comments pretty limit output generator)
  = (1 + Z.of_nat (emitted (fst (write_comments pretty limit output
                                   generator))))%Z
  /\ stdout_texts (fst (write_comments pretty limit output generator))
     = map (fun k => progress (Z.of_nat k))
         (seq 1 (emitted (fst (write_comments pretty limit output
                                 generator)))).
Proof.
  rewrite emitted_write_comments.
  assert (Hsnd : snd (write_comments pretty limit output generator)
                 = match generator with
                   | [] => 1%Z
                   | c :: g => snd (while_comment pretty limit g c 1%Z)
                   end).
  { unfold write_comments. destruct generator as [|c g]; [reflexivity|].
    destruct (while_comment pretty limit g c 1%Z). reflexivity. }
  rewrite Hsnd, write_comments_eq.
  destruct generator as [|c g].
  - destruct pretty; split; reflexivity.
  - destruct (while_comment_count pretty limit g c 1%Z) as [Hn Hs].
    rewrite Hn. split; [reflexivity|].
    rewrite !stdout_texts_app, Hs.
    replace (stdout_texts [Open output]) with (@nil pystr) by reflexivity.
    replace (stdout_texts [Next]) with (@nil pystr) by reflexivity.
    replace (stdout_texts [Close]) with (@nil pystr) by reflexivity.
    destruct pretty; cbn [app stdout_texts]; rewrite app_nil_r;
      rewrite <- seq_shift, map_map; apply map_ext; intros k;
      f_equal; lia.
Qed.

(** ** The lookahead *)

Lemma while_comment_lookahead pretty limit (generator : list record) :
  forall comment count,
    pulls (fst (while_comment pretty limit generator comment count))
    <= emitted (fst (while_comment pretty limit generator comment count))
    /\ emitted (fst (while_comment pretty limit generator comment count))
       <= S (pulls (fst (while_comment pretty limit generator comment count))).
Proof.
  induction generator as [|c g IH]; intros comment count;
    rewrite while_comment_eq;
    destruct (truthy comment); try (cbn; lia);
    destruct (limit_reached limit count); cbn [fst];
    rewrite ?emitted_app, ?pulls_app, ?emitted_body, ?pulls_body;
    try lia.
  destruct (IH c (count + 1)%Z). lia.
Qed.

Lemma while_comment_lookahead_prefix pretty limit (generator : list record) :
  forall comment count n,
    emitted (firstn n (fst (while_comment pretty limit generator
                              comment count)))
    <= S (pulls (firstn n (fst (while_comment pretty limit generator
                                  comment count))))
    /\ pulls (firstn n (fst (while_comment pretty limit generator
                               comment count)))
       <= S (emitted (firstn n (fst (while_comment pretty limit generator
                                       comment count)))).
Proof.
  induction generator as [|c g IH]; intros comment count n;
    rewrite while_comment_eq;
    destruct (truthy comment);
    try (rewrite firstn_nil; cbn; lia);
    destruct (limit_reached limit count); cbn [fst]; unfold body;
    cbn [app];
    try (destruct n as [|[|[|[|n]]]]; cbn; lia).
  destruct n as [|[|[|n]]]; try (cbn; lia).
  cbn [firstn emitted pulls].
  destruct (IH c (count + 1)%Z n). lia.
Qed.

Lemma write_comments_lookahead_prefix pretty limit output
    (generator : list record) (n : nat) :
  emitted (firstn n (fst (write_comments pretty limit output generator)))
  <= pulls (firstn n (fst (write_comments pretty limit output generator)))
  /\ pulls (firstn n (fst (write_comments pretty limit output generator)))
     <= emitted (firstn n (fst (write_comments pretty limit output
                                  generator))) + 2.
Proof.
  rewrite write_comments_eq.
  set (loop := match generator with
               | [] => []
               | c :: g => fst (while_comment pretty limit g c 1%Z)
               end).
  assert (Hloop : forall k,
    emitted (firstn k loop) <= S (pulls (firstn k loop))
    /\ pulls (firstn k loop) <= S (emitted (firstn k loop))).
  { intros k. subst loop. destruct generator as [|c g].
    - rewrite firstn_nil. cbn. lia.
    - apply while_comment_lookahead_prefix. }
  set (tail := (if pretty
                then [Write ([LF] ++ spaces 4 ++ lit "]" ++ [LF] ++ lit "}")]
                else []) ++ [Close]).
  assert (Htail : forall k,
    emitted (firstn k tail) = 0 /\ pulls (firstn k tail) = 0).
  { intros k. subst tail. destruct pretty; destruct k as [|[|[|k]]];
      cbn; lia. }
  assert (Hrest : forall k,
    emitted (firstn k (loop ++ tail)) <= S (pulls (firstn k (loop ++ tail)))
    /\ pulls (firstn k (loop ++ tail))
       <= S (emitted (firstn k (loop ++ tail)))).
  { intros k. rewrite firstn_app, emitted_app, pulls_app.
    destruct (Htail (k - length loop)) as [-> ->].
    destruct (Hloop k). lia. }
  clearbody loop tail.
  destruct pretty; cbn [app].
  - destruct n as [|[|[|n]]]; try (cbn; lia).
    cbn [firstn emitted pulls]. destruct (Hrest n). lia.
  - destruct n as [|[|n]]; try (cbn; lia).
    cbn [firstn emitted pulls]. destruct (Hrest n). lia.
Qed.

(** X7: at every moment of the run, that is for every prefix of the trace
    of the [with] block, every record written had been asked for, and the
    producer has been asked for at most two records more than are written:
    the record being written and its lookahead.  When the block is left
    it has been asked at most once more than records are written. *)
Theorem one_record_lookahead pretty limit output (generator : list record) :
  (forall n,
      emitted (firstn n (fst (write_comments pretty limit output generator)))
      <= pulls (firstn n (fst (write_comments pretty limit output generator)))
      /\ pulls (firstn n (fst (write_comments pretty limit output generator)))
         <= emitted (firstn n (fst (write_comments pretty limit output
                                      generator))) + 2)
  /\ emitted (fst (write_comments pretty limit output generator))
     <= pulls (fst (write_comments pretty limit output generator))
  /\ pulls (fst (write_comments pretty limit output generator))
     <= S (emitted (fst (write_comments pretty limit output generator))).
Proof.
  split; [intros n; apply write_comments_lookahead_prefix|].
  rewrite emitted_write_comments, pulls_write_comments.
  destruct generator as [|c g]; [lia|].
  destruct (while_comment_lookahead pretty limit g c 1%Z). lia.
Qed.

(** ** Upper bounds on what is written *)

Lemma while_comment_at_most pretty limit (generator : list record) :
  forall comment count,
    emitted (fst (while_comment pretty limit generator comment count))
    <= S (length generator)
    /\ (forall L, limit = Some L -> (1 <= L)%Z -> (count <= L)%Z ->
        emitted (fst (while_comment pretty limit generator comment count))
        <= Z.to_nat (L - count + 1)).
Proof.
  induction generator as [|c g IH]; intros comment count;
    rewrite while_comment_eq;
    destruct (truthy comment); try (cbn; split; intros; lia);
    destruct (limit_reached limit count) eqn:Hreached; cbn [fst];
    rewrite ?emitted_app, ?emitted_body; cbn [length];
    try (split; intros; lia).
  destruct (IH c (count + 1)%Z) as [Hlen Hlim]. split; [lia|].
  intros L -> HL Hc. unfold limit_reached in Hreached.
  destruct (Z.eqb_spec L 0); [lia|].
  destruct (Z.geb_spec count L); [discriminate|].
  specialize (Hlim L eq_refl HL). lia.
Qed.

(** X8: the writer never writes more records than the producer yields,
    nor more than a limit of one or more. *)
Theorem emitted_at_most pretty limit output (generator : list record) :
  emitted (fst (write_comments pretty limit output generator))
  <= length generator
  /\ (forall L, limit = Some L -> (1 <= L)%Z ->
      emitted (fst (write_comments pretty limit output generator))
      <= Z.to_nat L).
Proof.
  rewrite emitted_write_comments.
  destruct generator as [|c g]; [split; intros; cbn; lia|].
  destruct (while_comment_at_most pretty limit g c 1%Z) as [Hlen Hlim].
  split; [exact Hlen|]. intros L E HL.
  specialize (Hlim L E HL). lia.
Qed.

Lemma emitted_at_most_witness :
  (1 <= 2)%Z
  /\ emitted (fst (write_comments true (Some 2%Z) out_path
                     [comment_a; empty_comment; comment_b; comment_c]))
     <= Z.to_nat 2.
Proof.
  split; [lia|].
  apply (proj2 (emitted_at_most true (Some 2%Z) out_path
                  [comment_a; empty_comment; comment_b; comment_c])
           2%Z eq_refl).
  lia.
Defined.

(** ** The text of ND-JSON mode *)

Lemma ndjson_while_text limit (generator : list record) :
  forall comment count,
    file_text (fst (while_comment false limit generator comment count))
    = flat_map (fun c => to_json c None)
        (firstn (emitted (fst (while_comment false limit generator
                                 comment count)))
           (comment :: generator)).
Proof.
  induction generator as [|c g IH]; intros comment count;
    rewrite while_comment_eq;
    destruct (truthy comment); try reflexivity;
    destruct (limit_reached limit count); cbn [fst];
    rewrite ?emitted_app, ?file_text_app, ?emitted_body, ?file_text_body;
    cbn [andb Nat.add firstn flat_map]; rewrite ?app_nil_r;
    try reflexivity.
  rewrite IH. reflexivity.
Qed.

(** X9: in ND-JSON mode the text of the file is the compact texts of the
    records written, one after the other, and these records are the first
    ones of the producer, in its order. *)
Theorem ndjson_text_is_prefix limit output (generator : list record) :
  file_text (fst (write_comments false limit output generator))
  = flat_map (fun c => to_json c None)
      (firstn (emitted (fst (write_comments false limit output generator)))
         generator).
Proof.
  rewrite emitted_write_comments, write_comments_eq.
  cbn [app file_text].
  destruct generator as [|c g]; [reflexivity|].
  rewrite file_text_app. cbn [file_text]. rewrite app_nil_r.
  apply ndjson_while_text.
Qed.

(** ** The empty producer *)

(** X10: when the producer yields nothing, it is asked once and no record
    is written; the ND-JSON file is empty and the Array-mode file decodes
    to a document with no comment. *)
Theorem empty_producer limit output :
  (forall pretty,
      pulls (fst (write_comments pretty limit output [])) = 1
      /\ emitted (fst (write_comments pretty limit output [])) = 0)
  /\ file_text (fst (write_comments false limit output [])) = []
  /\ json_loads (file_text (fst (write_comments true limit output [])))
     = Some (document []).
Proof.
  split; [intros [|]; split; reflexivity | split; reflexivity].
Qed.

(** ** The command line and the output file *)

(** X11: without an output path [main] raises before any effect, whatever
    the other arguments. *)
Theorem main_requires_output (downloader : Downloader)
    (youtubeid url : option pystr) (pretty : bool)
    (limit : option Z) (language : option pystr) (sort : Z) :
  main downloader youtubeid url [] pretty limit language sort
  = ([], Some (ValueError no_id_message)).
Proof. unfold main. cbn [str_truthy negb]. rewrite orb_true_r. reflexivity. Qed.

Lemma main_success (downloader : Downloader)
    (youtubeid url : option pystr) (output : pystr) (pretty : bool)
    (limit : option Z) (language : option pystr) (sort : Z) :
  str_truthy youtubeid || str_truthy url = true -> output <> [] ->
  main downloader youtubeid url output pretty limit language sort
  = ((if existsb (fun c => (c =? SEP)%N) output
      then [Makedirs (dirname output)] else [])
     ++ [Stdout (print_args [lit "Downloading Youtube comments for";
                             str_of (or_else youtubeid url)]);
         NewDownloader]
     ++ fst (write_comments pretty limit output
               (generator_of downloader youtubeid url language sort))
     ++ [Report],
     None).
Proof.
  intros Hid Hout. unfold main, generator_of.
  destruct output as [|c o]; [contradiction|].
  replace (negb (str_truthy youtubeid) && negb (str_truthy url)) with false
    by (destruct (str_truthy youtubeid), (str_truthy url);
        try reflexivity; discriminate).
  cbn [str_truthy negb orb].
  destruct (write_comments _ _ _ _). reflexivity.
Qed.






(** X14: in a run of [main] that does not raise, the text of the file,
    the number of records written and the number of requests to the
    producer are those of the [with] block on the generator of the
    identifier, or of the URL when there is no identifier: nothing else
    that [main] does touches the file or the producer. *)
Theorem main_runs_the_writer (downloader : Downloader)
    (youtubeid url : option pystr) (output : pystr) (pretty : bool)
    (limit : option Z) (language : option pystr) (sort : Z) :
  str_truthy youtubeid || str_truthy url = true -> output <> [] ->
  file_text
    (fst (main downloader youtubeid url output pretty limit language sort))
  = file_text
      (fst (write_comments pretty limit output
              (generator_of downloader youtubeid url language sort)))
  /\ emitted
       (fst (main downloader youtubeid url output pretty limit language sort))
     = emitted
         (fst (write_comments pretty limit output
                 (generator_of downloader youtubeid url language sort)))
  /\ pulls
       (fst (main downloader youtubeid url output pretty limit language sort))
     = pulls
         (fst (write_comments pretty limit output
                 (generator_of downloader youtubeid url language sort))).
Proof.
  intros Hid Hout. rewrite main_success by assumption. cbn [fst].
  rewrite !file_text_app, !emitted_app, !pulls_app.
  destruct (existsb (fun c => (c =? SEP)%N) output); cbn;
    rewrite ?app_nil_r; repeat split; lia.
Qed.

Lemma main_runs_the_writer_witness :
  str_truthy None || str_truthy (Some (lit "url")) = true
  /\ out_path <> []
  /\ file_text
       (fst (main (yields [comment_a; comment_b]) None (Some (lit "url"))
               out_path false None None 1))
     = file_text
         (fst (write_comments false None out_path
                 (generator_of (yields [comment_a; comment_b]) None
                    (Some (lit "url")) None 1))).
Proof.
  split; [reflexivity|]. split; [discriminate|].
  apply (proj1 (@main_runs_the_writer (yields [comment_a; comment_b]) None
                  (Some (lit "url")) out_path false None None 1
                  eq_refl ltac:(discriminate))).
Defined.

(** ** Witnesses for the properties of the limit and of Array mode *)

Lemma array_mode_loads_plain_witness :
  forallb truthy [comment_a; comment_b; comment_c] = true
  /\ forallb plain_record [comment_a; comment_b; comment_c] = true
  /\ json_loads
       (file_text (fst (write_comments true (Some 2%Z) out_path
                          [comment_a; comment_b; comment_c])))
     = Some (document [comment_a; comment_b]).
Proof.
  split; [reflexivity|]. split; [reflexivity|].
  apply (@array_mode_loads_plain (Some 2%Z) out_path
           [comment_a; comment_b; comment_c]); reflexivity.
Defined.

Lemma pulls_exactly_limit_witness :
  (1 <= 2)%Z
  /\ forallb truthy [comment_a; comment_b; comment_c] = true
  /\ Z.to_nat 2 <= length [comment_a; comment_b; comment_c]
  /\ pulls (fst (write_comments false (Some 2%Z) out_path
                   [comment_a; comment_b; comment_c])) = Z.to_nat 2.
Proof.
  split; [lia|]. split; [reflexivity|]. split; [cbn; lia|].
  apply (@pulls_exactly_limit false out_path 2%Z
           [comment_a; comment_b; comment_c]); [lia | reflexivity | cbn; lia].
Defined.

Lemma negative_limit_emits_one_witness :
  (-1 < 0)%Z
  /\ truthy comment_a = true
  /\ emitted (fst (write_comments false (Some (-1)%Z) out_path
                     [comment_a; comment_b])) = 1.
Proof.
  split; [lia|]. split; [reflexivity|].
  apply (@negative_limit_emits_one false out_path (-1)%Z comment_a
           [comment_b]); [lia | reflexivity].
Defined.

Lemma limit_zero_is_no_limit_witness :
  (Some 0%Z = None \/ Some 0%Z = Some 0%Z)
  /\ forallb truthy [comment_a; comment_b] = true
  /\ emitted (fst (write_comments false (Some 0%Z) out_path
                     [comment_a; comment_b])) = 2.
Proof.
  split; [right; reflexivity|]. split; [reflexivity|].
  apply (@limit_zero_is_no_limit false out_path (Some 0%Z)
           [comment_a; comment_b]); [right; reflexivity | reflexivity].
Defined.
